(** * TelemetrixAioSerial: the asyncio adapter over a blocking pyserial port

    A shallow embedding of [src/telemetrix_aio/telemtrix_aio_serial.py].

    Conventions of the embedding
    - The pyserial object is an abstract driver (class [Driver]): each method
      of [serial.Serial] that the adapter calls is one operation of the class,
      returning the new port state and either a value or a raised exception.
    - Python state is threaded explicitly through a [World]: the attributes of
      the adapter instance ([self]), a store of port objects addressed by
      handle, the owning session objects, the ambient event loop, the host's
      wall clock, the time the adapter has asked to be suspended and a trace
      of every driver call and every suspension.
    - Statements live in the monad [M]: world passing with three results,
      a value, a raised exception, or [Pending] when a [while True] loop is
      still iterating after [fuel] iterations.
    - Durations the adapter asks for are integers in microseconds ([second] =
      1000000), where Python has floats in seconds.  [clock] adds up the
      suspensions asked for: [asyncio.sleep d] adds [Z.max 0 d] to it.
    - What [time.time()] returns is the host's: [wall] gives the reading, in
      the unit of the timeout, as a function of everything that has happened
      so far (the trace), so the wall clock may advance during driver calls
      and suspensions of length 0, overrun the suspensions asked for, or
      stand still.  Only the
      outcomes of the test [(time.time() - start_time) > timeout] enter the
      adapter's behaviour, and every sequence of outcomes is that of some
      [wall]. *)

From Stdlib Require Import ZArith NArith List String Ascii Bool Lia.
From Stdlib Require Import Strings.Byte.
From Stdlib Require Import Decimal DecimalString.
Import ListNotations.

Local Open Scope Z_scope.

(** ** Python values, exceptions, results *)

Definition handle := nat.

(** What the adapter's coroutines hand back to their caller. *)
Inductive value : Type :=
| VNone
| VInt (n : Z)
| VList (l : list byte).

Inductive exn : Type :=
| SerialException (errno : nat)
| TypeError
| AttributeError
| CancelledError
| InvalidStateError.

Inductive result (A : Type) : Type :=
| Ok (a : A)
| Raise (e : exn)
| Pending.

Arguments Ok {A} a.
Arguments Raise {A} e.
Arguments Pending {A}.

(** [LF = 0x0a] *)
Definition LF : Z := 0x0a.

(** One second, in microseconds. *)
Definition second : Z := 1000000.

(** ** The driver interface (the methods of [serial.Serial] the adapter uses) *)

Class Driver (P : Type) : Type := {
  (** [Serial.write(data)]: the number of bytes accepted. *)
  drv_write : list byte -> P -> P * result N;
  (** [Serial.in_waiting]: the number of bytes in the input buffer. *)
  drv_in_waiting : P -> P * result N;
  (** [Serial.read(size)] *)
  drv_read : N -> P -> P * result (list byte);
  (** [Serial.read_until(expected, size)] *)
  drv_read_until : list byte -> option N -> P -> P * result (list byte);
  (** [Serial.reset_input_buffer()] *)
  drv_reset_input_buffer : P -> P * result unit;
  (** [Serial.close()]: pyserial's close does nothing on a closed port. *)
  drv_close : P -> P;
  (** What happens to the port while the coroutine is suspended for [d]. *)
  drv_elapse : Z -> P -> P
}.

(** ** Objects around the adapter *)

(** [telemetrix_aio_instance.the_task]: an asyncio task, or None. *)
Record Task : Type := { cancel_requested : bool }.

Record Session : Type := { the_task : option Task }.

(** The ambient event loop reached by [asyncio.get_event_loop()]. *)
Record EventLoop : Type := { loop_stopped : bool; loop_closed : bool }.

(** [asyncio.Future()] *)
Inductive Future : Type :=
| FutPending
| FutCancelled
| FutFinished (v : value).

(** The attributes set by [TelemetrixAioSerial.__init__]. *)
Record Adapter : Type := {
  my_serial : option handle;
  com_port : string;
  sleep_tune : Z;
  telemetrix_aio_instance : option nat;
  close_loop_on_error : bool;
  start_time : option Z
}.

(** Every interaction of the adapter with the driver and the scheduler. *)
Inductive Event : Type :=
| EvWrite (r : handle) (data : list byte) (res : result N)
| EvInWaiting (r : handle) (res : result N)
| EvRead (r : handle) (size : N) (res : result (list byte))
| EvReadUntil (r : handle) (expected : list byte) (size : option N)
              (res : result (list byte))
| EvResetInputBuffer (r : handle) (res : result unit)
| EvClose (r : handle)
| EvSleep (d : Z).

(** ** Python helpers *)

(** [str(n)] for an int. *)
Definition str (n : Z) : string := NilZero.string_of_int (Z.to_int n).

(** [s.encode()] *)
Definition encode (s : string) : list byte := list_byte_of_string s.

(** [bytes(data)] for a sequence of byte values. *)
Definition bytes (data : list byte) : list byte := data.

(** [ord(data)] for a bytes object: defined on length 1 only. *)
Definition ord (data : list byte) : result Z :=
  match data with
  | [b] => Ok (Z.of_N (Byte.to_N b))
  | _ => Raise TypeError
  end.

(** Truth value of an int. *)
Definition truthy (n : N) : bool := negb (N.eqb n 0).

(** Truth value of a Python value: None, 0 and the empty list are false. *)
Definition truthy_value (v : value) : bool :=
  match v with
  | VNone => false
  | VInt n => negb (Z.eqb n 0)
  | VList l => negb (Nat.eqb (List.length l) 0)
  end.

(** Truth value of the [timeout] argument: None and 0 are false. *)
Definition truthy_timeout (o : option Z) : bool :=
  match o with
  | Some t => negb (Z.eqb t 0)
  | None => false
  end.

(** Truth value of an object reference: only None is false. *)
Definition truthy_ref {A : Type} (o : option A) : bool :=
  match o with
  | Some _ => true
  | None => false
  end.

Definition is_SerialException (e : exn) : bool :=
  match e with
  | SerialException _ => true
  | _ => false
  end.

Definition upd {A : Type} (r : nat) (a : A) (f : nat -> A) : nat -> A :=
  fun r' => if Nat.eqb r' r then a else f r'.

(** The suspensions asked for in a stretch of the trace, added up. *)
Fixpoint slept (evs : list Event) : Z :=
  match evs with
  | [] => 0
  | EvSleep d :: evs' => Z.max 0 d + slept evs'
  | _ :: evs' => slept evs'
  end.

(** ** The adapter over a driver *)

Section AdapterModel.

Context {P : Type} {D : Driver P}.

Record World : Type := {
  (** the attributes of the adapter *)
  self : Adapter;
  (** the port objects, by handle *)
  ports : handle -> P;
  (** the session objects *)
  sessions : nat -> Session;
  (** the ambient event loop *)
  loop : EventLoop;
  (** the suspensions the adapter has asked for, added up *)
  clock : Z;
  (** every driver call and every suspension so far, oldest first *)
  trace : list Event;
  (** the host's wall clock: what [time.time()] returns once the events of
      its argument have happened *)
  wall : list Event -> Z
}.

Definition M (A : Type) : Type := World -> World * result A.

Definition ret {A : Type} (a : A) : M A := fun w => (w, Ok a).

Definition bind {A B : Type} (m : M A) (k : A -> M B) : M B :=
  fun w =>
    match m w with
    | (w', Ok a) => k a w'
    | (w', Raise e) => (w', Raise e)
    | (w', Pending) => (w', Pending)
    end.

Definition raise {A : Type} (e : exn) : M A := fun w => (w, Raise e).

(** [try: m  except serial.SerialException as e: h e] *)
Definition try_except {A : Type} (m : M A) (h : exn -> M A) : M A :=
  fun w =>
    match m w with
    | (w', Raise e) => if is_SerialException e then h e w' else (w', Raise e)
    | r => r
    end.

(** [while True: body]; the body answers [Some a] for [return a] and [None]
    when the next iteration starts ([continue], or the end of the body). *)
Fixpoint while_true {A : Type} (fuel : nat) (body : M (option A)) : M A :=
  fun w =>
    match fuel with
    | O => (w, Pending)
    | S fuel' =>
        match body w with
        | (w', Ok (Some a)) => (w', Ok a)
        | (w', Ok None) => while_true fuel' body w'
        | (w', Raise e) => (w', Raise e)
        | (w', Pending) => (w', Pending)
        end
    end.

Definition lift_result {A : Type} (r : result A) : M A := fun w => (w, r).

Definition when (b : bool) (m : M unit) : M unit := if b then m else ret tt.

End AdapterModel.

Arguments World P : clear implicits.
Arguments M P A : clear implicits.

Declare Scope py_scope.
Delimit Scope py_scope with py.
Notation "x <- m ;; k" := (bind m (fun x => k))
  (at level 100, m at next level, right associativity) : py_scope.
Notation "m ;; k" := (bind m (fun _ => k))
  (at level 100, right associativity) : py_scope.

Local Open Scope py_scope.

Section AdapterOps.

Context {P : Type} {D : Driver P}.

#[local] Abbreviation World := (World P).
#[local] Abbreviation M := (M P).

(** *** State access *)

Definition get_self : M Adapter := fun w => (w, Ok (self w)).

Definition set_port (r : handle) (p : P) (w : World) : World :=
  {| self := self w; ports := upd r p (ports w); sessions := sessions w;
     loop := loop w; clock := clock w; trace := trace w;
     wall := wall w |}.

Definition log (ev : Event) (w : World) : World :=
  {| self := self w; ports := ports w; sessions := sessions w;
     loop := loop w; clock := clock w; trace := trace w ++ [ev];
     wall := wall w |}.

Definition set_loop (l : EventLoop) (w : World) : World :=
  {| self := self w; ports := ports w; sessions := sessions w;
     loop := l; clock := clock w; trace := trace w;
     wall := wall w |}.

Definition set_session (i : nat) (s : Session) (w : World) : World :=
  {| self := self w; ports := ports w; sessions := upd i s (sessions w);
     loop := loop w; clock := clock w; trace := trace w;
     wall := wall w |}.

(** [self.my_serial.<method>(...)]: the method [f] of the port object that
    [self.my_serial] refers to; on None the attribute lookup raises. *)
Definition serial_call {A : Type} (f : P -> P * result A)
  (ev : handle -> result A -> Event) : M A :=
  fun w =>
    match my_serial (self w) with
    | None => (w, Raise AttributeError)
    | Some r =>
        let (p', res) := f (ports w r) in
        (log (ev r res) (set_port r p' w), res)
    end.

Definition serial_write (data : list byte) : M N :=
  serial_call (drv_write data) (fun r res => EvWrite r data res).

Definition serial_in_waiting : M N :=
  serial_call drv_in_waiting EvInWaiting.

Definition serial_read (size : N) : M (list byte) :=
  serial_call (drv_read size) (fun r res => EvRead r size res).

Definition serial_read_until (expected : list byte) (size : option N)
  : M (list byte) :=
  serial_call (drv_read_until expected size)
              (fun r res => EvReadUntil r expected size res).

Definition serial_reset_input_buffer : M unit :=
  serial_call drv_reset_input_buffer EvResetInputBuffer.

Definition serial_close : M unit :=
  serial_call (fun p => (drv_close p, Ok tt)) (fun r _ => EvClose r).

(** [await asyncio.sleep(d)] *)
Definition sleep (d : Z) : M unit :=
  fun w =>
    ({| self := self w;
        ports := fun r => drv_elapse (Z.max 0 d) (ports w r);
        sessions := sessions w; loop := loop w;
        clock := clock w + Z.max 0 d;
        trace := trace w ++ [EvSleep d];
        wall := wall w |}, Ok tt).

(** The reading of the host's wall clock at [w]. *)
Definition now (w : World) : Z := wall w (trace w).

(** [time.time()] *)
Definition time_time : M Z := fun w => (w, Ok (now w)).

(** [loop.stop()] and [loop.close()] on the ambient loop. *)
Definition loop_stop : M unit :=
  fun w => (set_loop {| loop_stopped := true;
                        loop_closed := loop_closed (loop w) |} w, Ok tt).

Definition loop_close : M unit :=
  fun w => (set_loop {| loop_stopped := loop_stopped (loop w);
                        loop_closed := true |} w, Ok tt).

(** [self.telemetrix_aio_instance.the_task] *)
Definition get_the_task : M (option Task) :=
  fun w =>
    match telemetrix_aio_instance (self w) with
    | None => (w, Raise AttributeError)
    | Some i => (w, Ok (the_task (sessions w i)))
    end.

(** [self.telemetrix_aio_instance.the_task.cancel()] *)
Definition task_cancel : M unit :=
  fun w =>
    match telemetrix_aio_instance (self w) with
    | None => (w, Raise AttributeError)
    | Some i =>
        match the_task (sessions w i) with
        | None => (w, Raise AttributeError)
        | Some _ =>
            let t := {| cancel_requested := true |} in
            (set_session i {| the_task := Some t |} w, Ok tt)
        end
    end.

(** *** Futures *)

Definition fut_cancel (f : Future) : Future :=
  match f with
  | FutPending => FutCancelled
  | _ => f
  end.

Definition fut_set_result (v : value) (f : Future) : result Future :=
  match f with
  | FutPending => Ok (FutFinished v)
  | _ => Raise InvalidStateError
  end.

Definition fut_done (f : Future) : bool :=
  match f with
  | FutPending => false
  | _ => true
  end.

Definition fut_result (f : Future) : result value :=
  match f with
  | FutFinished v => Ok v
  | FutCancelled => Raise CancelledError
  | FutPending => Raise InvalidStateError
  end.

(** *** The coroutines of [TelemetrixAioSerial] *)

(** [async def close(self)] *)
Definition close : M unit :=
  s <- get_self ;;
  if truthy_ref (my_serial s) then serial_close else ret tt.

(** [async def get_serial(self)] *)
Definition get_serial : M (option handle) :=
  s <- get_self ;;
  ret (my_serial s).

(** [async def write(self, data)].  The statements after [raise e] in the
    handler are kept where the source has them. *)
Definition write (fuel : nat) (data : list byte) : M value :=
  let future := FutPending in
  let result := VNone in
  rf <- try_except
          (n <- serial_write (bytes data) ;;
           ret (VInt (Z.of_N n), future))
          (fun e =>
             close ;;
             (raise e : M unit) ;;
             let future := fut_cancel future in
             s <- get_self ;;
             when (close_loop_on_error s) loop_stop ;;
             t <- get_the_task ;;
             when (truthy_ref t) task_cancel ;;
             sleep (1 * second) ;;
             when (close_loop_on_error s) loop_close ;;
             ret (result, future)) ;;
  let (result, future) := (rf : value * Future) in
  if truthy_value result then
    future <- lift_result (fut_set_result result future) ;;
    while_true fuel
      (if negb (fut_done future) then
         s <- get_self ;;
         sleep (sleep_tune s) ;;
         ret None
       else
         v <- lift_result (fut_result future) ;;
         ret (Some v))
  else
    ret VNone.

(** The handler shared by [read] and [read_until]:
    [except serial.SerialException as e: await self.close(); raise e]. *)
Definition close_and_reraise {A : Type} (e : exn) : M A :=
  close ;;
  raise e.

(** One iteration of the loop of [read]. *)
Definition read_body (size : N) : M (option value) :=
  try_except
    (n <- serial_in_waiting ;;
     if negb (truthy n) then
       s <- get_self ;;
       sleep (sleep_tune s * 2) ;;
       ret None
     else
       data <- serial_read size ;;
       if N.eqb size 1 then
         c <- lift_result (ord data) ;;
         ret (Some (VInt c))
       else
         ret (Some (VList data)))
    close_and_reraise.

(** [async def read(self, size=1)] *)
Definition read (fuel : nat) (size : N) : M value :=
  while_true fuel (read_body size).

(** [timeout and (time.time() - start_time) > timeout] *)
Definition deadline_passed (timeout : option Z) (start_time : Z) : M bool :=
  match timeout with
  | Some t =>
      if truthy_timeout timeout then
        now <- time_time ;;
        ret (now - start_time >? t)
      else ret false
  | None => ret false
  end.

(** One iteration of the loop of [read_until]. *)
Definition read_until_body (expected : list byte) (size : option N)
  (timeout : option Z) (start_time : Z) : M (option value) :=
  try_except
    (n <- serial_in_waiting ;;
     if negb (truthy n) then
       expired <- deadline_passed timeout start_time ;;
       if (expired : bool) then
         ret (Some VNone)
       else
         s <- get_self ;;
         sleep (sleep_tune s) ;;
         ret None
     else
       data <- serial_read_until expected size ;;
       ret (Some (VList data)))
    close_and_reraise.

(** [async def read_until(self, expected=LF, size=None, timeout=1)] *)
Definition read_until (fuel : nat) (expected : Z) (size : option N)
  (timeout : option Z) : M value :=
  let expected := encode (str expected) in
  start_time <- time_time ;;
  while_true fuel (read_until_body expected size timeout start_time).

(** [async def reset_input_buffer(self)] *)
Definition reset_input_buffer : M unit :=
  serial_reset_input_buffer.

(** The default arguments of the signatures. *)
Definition read_default (fuel : nat) : M value := read fuel 1.

Definition read_until_default (fuel : nat) : M value :=
  read_until fuel LF None (Some (1 * second)).

(** [TelemetrixAioSerial.__init__], given the handle [r] of the port object
    that [serial.Serial(com_port, baud_rate, timeout=1, writeTimeout=1)]
    created. *)
Definition init (r : handle) (com_port : string) (sleep_tune : Z)
  (telemetrix_aio_instance : option nat) (close_loop_on_error : bool)
  : Adapter :=
  {| my_serial := Some r;
     com_port := com_port;
     sleep_tune := sleep_tune;
     telemetrix_aio_instance := telemetrix_aio_instance;
     close_loop_on_error := close_loop_on_error;
     start_time := None |}.

(** The operations of the adapter, for statements about all of them. *)
Inductive Operation : Type :=
| OpWrite (data : list byte)
| OpRead (size : N)
| OpReadUntil (expected : Z) (size : option N) (timeout : option Z)
| OpResetInputBuffer
| OpClose
| OpGetSerial.

(** The result of an operation, with the handle of [get_serial] kept as it
    is. *)
Inductive answer : Type :=
| AValue (v : value)
| AHandle (h : option handle).

Definition fmap {A B : Type} (f : A -> B) (m : M A) : M B :=
  a <- m ;; ret (f a).

Definition run_op (op : Operation) (fuel : nat) : M answer :=
  match op with
  | OpWrite data => fmap AValue (write fuel data)
  | OpRead size => fmap AValue (read fuel size)
  | OpReadUntil expected size timeout =>
      fmap AValue (read_until fuel expected size timeout)
  | OpResetInputBuffer => fmap (fun _ => AValue VNone) reset_input_buffer
  | OpClose => fmap (fun _ => AValue VNone) close
  | OpGetSerial => fmap AHandle get_serial
  end.

(** *** Polls that find nothing

    The vocabulary of the statements about the poll loops. *)

(** The poll at [w] finds the input buffer empty. *)
Definition poll_empty (w : World) : bool :=
  match snd (serial_in_waiting w) with
  | Ok n => negb (truthy n)
  | _ => false
  end.

(** The world after a poll and a suspension of [d]. *)
Definition idle (d : Z) (w : World) : World :=
  fst (sleep d (fst (serial_in_waiting w))).

Fixpoint idles (k : nat) (d : Z) (w : World) : World :=
  match k with
  | O => w
  | S k' => idles k' d (idle d w)
  end.

(** The first [k] polls, [d] apart, all find the buffer empty. *)
Fixpoint quiet (k : nat) (d : Z) (w : World) : bool :=
  match k with
  | O => true
  | S k' => poll_empty w && quiet k' d (idle d w)
  end.

(** [timeout and (time.time() - start_time) > timeout] as the iteration that
    starts at [w] decides it, on the reading taken after its poll. *)
Definition expired (timeout : option Z) (start_time : Z) (w : World) : bool :=
  match timeout with
  | Some t =>
      truthy_timeout timeout
      && (now (fst (serial_in_waiting w)) - start_time >? t)
  | None => false
  end.

(** The first [k] polls find nothing and none of them is past the deadline. *)
Fixpoint calm (k : nat) (d : Z) (timeout : option Z) (start_time : Z)
  (w : World) : bool :=
  match k with
  | O => true
  | S k' => poll_empty w && negb (expired timeout start_time w)
            && calm k' d timeout start_time (idle d w)
  end.

(** [close()] called [n] times in a row: the result of the last call, or of
    the first that did not return. *)
Fixpoint close_times (n : nat) : M unit :=
  match n with
  | O => ret tt
  | S n' => close ;; close_times n'
  end.

(** The events of [k] polls, [d] apart, that found nothing on port [r]. *)
Fixpoint idle_events (r : handle) (d : Z) (k : nat) : list Event :=
  match k with
  | O => []
  | S k' => EvInWaiting r (Ok 0%N) :: EvSleep d :: idle_events r d k'
  end.

Definition is_read (ev : Event) : bool :=
  match ev with
  | EvRead _ _ _ => true
  | _ => false
  end.

Definition is_read_until (ev : Event) : bool :=
  match ev with
  | EvReadUntil _ _ _ _ => true
  | _ => false
  end.

(** The number of driver [read] calls, and of driver [read_until] calls, in
    a stretch of the trace. *)
Definition count_reads (evs : list Event) : nat :=
  List.length (filter is_read evs).

Definition count_read_untils (evs : list Event) : nat :=
  List.length (filter is_read_until evs).

End AdapterOps.

(** ** Relations between worlds, for the frame statements *)

(** A computation whose final world is always related by [R] to the world
    it started in. *)
Definition preserves {P A : Type} (R : World P -> World P -> Prop)
  (m : M P A) : Prop :=
  forall w, R w (fst (m w)).

(** The attributes of the adapter are as they were. *)
Definition same_self {P : Type} (w w' : World P) : Prop := self w' = self w.

(** The trace has only grown. *)
Definition trace_grows {P : Type} (w w' : World P) : Prop :=
  exists evs, trace w' = trace w ++ evs.

(** The driver call an operation makes first on the port at handle [r]. *)
Definition first_call (op : Operation) (r : handle) (ev : Event) : Prop :=
  match op with
  | OpWrite data => exists res, ev = EvWrite r (bytes data) res
  | OpRead _ => exists res, ev = EvInWaiting r res
  | OpReadUntil _ _ _ => exists res, ev = EvInWaiting r res
  | OpResetInputBuffer => exists res, ev = EvResetInputBuffer r res
  | OpClose => ev = EvClose r
  | OpGetSerial => False
  end.

(** [write], [read] and [read_until]: the operations with a fault handler. *)
Definition handles_faults (op : Operation) : bool :=
  match op with
  | OpWrite _ | OpRead _ | OpReadUntil _ _ _ => true
  | _ => false
  end.

(** The computation [m], started at [w], logs [ev] before anything else. *)
Definition begins {P A : Type} (ev : Event) (m : M P A) (w : World P)
  : Prop :=
  exists evs, trace (fst (m w)) = trace w ++ ev :: evs.

(** ** A scripted port: the fake driver of the spec's scenarios

    A [FakeSerial] is a byte-stream port with an input buffer pre-loaded with
    [rx], bytes that arrive later ([incoming], by arrival time on the port's
    own clock), an optional limit on the bytes one write accepts, and a fuse:
    the number of further calls served before every call raises.  A call on
    a closed port raises a SerialException; pyserial raises its
    PortNotOpenError from [write], [read] and [reset_input_buffer], and
    leaves [close] on a closed port without effect. *)

Record FakeSerial : Type := {
  is_open : bool;
  rx : list byte;
  tx : list byte;
  accept_limit : option N;
  fuse : option nat;
  uptime : Z;
  incoming : list (Z * list byte)
}.

(** errno of the fault raised on a closed port, and of a blown fuse. *)
Definition EBADF : nat := 9%nat.
Definition EIO : nat := 5%nat.

Definition set_rx (l : list byte) (p : FakeSerial) : FakeSerial :=
  {| is_open := is_open p; rx := l; tx := tx p;
     accept_limit := accept_limit p; fuse := fuse p; uptime := uptime p;
     incoming := incoming p |}.

Definition set_tx (l : list byte) (p : FakeSerial) : FakeSerial :=
  {| is_open := is_open p; rx := rx p; tx := l;
     accept_limit := accept_limit p; fuse := fuse p; uptime := uptime p;
     incoming := incoming p |}.

Definition set_fuse (f : option nat) (p : FakeSerial) : FakeSerial :=
  {| is_open := is_open p; rx := rx p; tx := tx p;
     accept_limit := accept_limit p; fuse := f; uptime := uptime p;
     incoming := incoming p |}.

(** What every call goes through first: closed port, blown fuse, or served. *)
Definition fake_call {A : Type} (f : FakeSerial -> FakeSerial * A)
  (p : FakeSerial) : FakeSerial * result A :=
  if negb (is_open p) then (p, Raise (SerialException EBADF))
  else
    match fuse p with
    | Some O => (p, Raise (SerialException EIO))
    | Some (S k) => let (p', a) := f (set_fuse (Some k) p) in (p', Ok a)
    | None => let (p', a) := f p in (p', Ok a)
    end.

Definition fake_write (data : list byte)
  : FakeSerial -> FakeSerial * result N :=
  fake_call (fun p =>
    let n := match accept_limit p with
             | Some k => N.min k (N.of_nat (List.length data))
             | None => N.of_nat (List.length data)
             end in
    (set_tx (tx p ++ firstn (N.to_nat n) data) p, n)).

Definition fake_in_waiting : FakeSerial -> FakeSerial * result N :=
  fake_call (fun p => (p, N.of_nat (List.length (rx p)))).

Definition fake_read (size : N)
  : FakeSerial -> FakeSerial * result (list byte) :=
  fake_call (fun p =>
    (set_rx (skipn (N.to_nat size) (rx p)) p, firstn (N.to_nat size) (rx p))).

Fixpoint bytes_eqb (a b : list byte) : bool :=
  match a, b with
  | [], [] => true
  | x :: a', y :: b' => Byte.eqb x y && bytes_eqb a' b'
  | _, _ => false
  end.

(** [line[-lenterm:] == expected] *)
Definition ends_with (expected line : list byte) : bool :=
  let lenterm := List.length expected in
  let tail := match lenterm with
              | O => line
              | _ => skipn (List.length line - lenterm) line
              end in
  bytes_eqb tail expected.

(** The loop of pyserial's [read_until]: one byte at a time until the line
    ends with [expected], the size is reached, or no byte is left (the port's
    read timeout).  Returns the line and the bytes left in the buffer. *)
Fixpoint take_until (expected : list byte) (size : option N)
  (line buf : list byte) : list byte * list byte :=
  match buf with
  | [] => (line, [])
  | c :: rest =>
      let line' := line ++ [c] in
      if ends_with expected line' then (line', rest)
      else
        match size with
        | Some n =>
            if (n <=? N.of_nat (List.length line'))%N then (line', rest)
            else take_until expected size line' rest
        | None => take_until expected size line' rest
        end
  end.

Definition fake_read_until (expected : list byte) (size : option N)
  : FakeSerial -> FakeSerial * result (list byte) :=
  fake_call (fun p =>
    let (line, rest) := take_until expected size [] (rx p) in
    (set_rx rest p, line)).

Definition fake_reset_input_buffer : FakeSerial -> FakeSerial * result unit :=
  fake_call (fun p => (set_rx [] p, tt)).

Definition fake_close (p : FakeSerial) : FakeSerial :=
  {| is_open := false; rx := []; tx := tx p;
     accept_limit := accept_limit p; fuse := fuse p; uptime := uptime p;
     incoming := incoming p |}.

(** Bytes whose arrival time has come reach the input buffer of an open
    port, in order; on a closed port they are lost. *)
Definition fake_elapse (d : Z) (p : FakeSerial) : FakeSerial :=
  let t := uptime p + d in
  let due := filter (fun a => fst a <=? t) (incoming p) in
  let later := filter (fun a => negb (fst a <=? t)) (incoming p) in
  {| is_open := is_open p;
     rx := if is_open p then rx p ++ List.concat (map snd due) else rx p;
     tx := tx p;
     accept_limit := accept_limit p; fuse := fuse p; uptime := t;
     incoming := later |}.

#[global] Instance FakeDriver : Driver FakeSerial := {
  drv_write := fake_write;
  drv_in_waiting := fake_in_waiting;
  drv_read := fake_read;
  drv_read_until := fake_read_until;
  drv_reset_input_buffer := fake_reset_input_buffer;
  drv_close := fake_close;
  drv_elapse := fake_elapse
}.

(** An open port pre-loaded with [buf]. *)
Definition preloaded (buf : list byte) : FakeSerial :=
  {| is_open := true; rx := buf; tx := []; accept_limit := None;
     fuse := None; uptime := 0; incoming := [] |}.

(** The adapter [a] over the port [p] at handle 0, with session 0 holding a
    live task, a running loop, no suspension so far, and a host whose wall
    clock advances by exactly the suspensions asked for. *)
Definition fake_world (a : Adapter) (p : FakeSerial) : World FakeSerial :=
  {| self := a;
     ports := fun _ => p;
     sessions :=
       fun _ => {| the_task := Some {| cancel_requested := false |} |};
     loop := {| loop_stopped := false; loop_closed := false |};
     clock := 0;
     trace := [];
     wall := slept |}.

(** [TelemetrixAioSerial()] with the defaults of the constructor, apart from
    the session, and [sleep_tune=.0001] as 100 microseconds. *)
Definition default_adapter (session : option nat) : Adapter :=
  init 0%nat "/dev/ttyACM0" 100 session true.


(** ** The worlds of the scenarios *)

(** A fake world whose adapter holds handle [r] to an open port with nothing
    buffered, nothing on its way and no fault armed. *)
Definition silent (r : handle) (w : World FakeSerial) : Prop :=
  my_serial (self w) = Some r
  /\ is_open (ports w r) = true
  /\ rx (ports w r) = []
  /\ incoming (ports w r) = []
  /\ fuse (ports w r) = None.

(** The default adapter over an open port with an empty buffer. *)
Definition silent_world : World FakeSerial :=
  fake_world (default_adapter None) (preloaded []).

(** The default adapter over an open port pre-loaded with "AB". *)
Definition ab_world : World FakeSerial :=
  fake_world (default_adapter None) (preloaded [x41; x42]).

(** The default adapter over an open port pre-loaded with "HI". *)
Definition hi_world : World FakeSerial :=
  fake_world (default_adapter None) (preloaded [x48; x49]).

(** The default adapter with session 0 attached, over an open port holding
    "AB" whose next call raises. *)
Definition faulty_world : World FakeSerial :=
  fake_world (default_adapter (Some 0%nat))
             (set_fuse (Some 0%nat) (preloaded [x41; x42])).

(** The default adapter over an open port pre-loaded with "HI\nOK". *)
Definition hiok_world : World FakeSerial :=
  fake_world (default_adapter None) (preloaded [x48; x49; x0a; x4f; x4b]).

(** The default adapter over an open port that accepts at most [k] bytes of
    a write. *)
Definition narrow_world (k : N) : World FakeSerial :=
  fake_world (default_adapter None)
    {| is_open := true; rx := []; tx := []; accept_limit := Some k;
       fuse := None; uptime := 0; incoming := [] |}.

(** The default adapter over an open, empty port that receives "A" 250
    microseconds from now. *)
Definition late_world : World FakeSerial :=
  fake_world (default_adapter None)
    {| is_open := true; rx := []; tx := []; accept_limit := None;
       fuse := None; uptime := 0; incoming := [(250, [x41])] |}.

(** The default adapter over a port holding "ABC" that serves two more calls
    and raises on the third. *)
Definition fused_world : World FakeSerial :=
  fake_world (default_adapter None)
             (set_fuse (Some 2%nat) (preloaded [x41; x42; x43])).

(** ** Vocabulary of the further properties *)

(** [write] with the future, its polling loop and the statements after
    [raise e] taken out: the driver call, the handler, the test on the
    count. *)
Definition write_direct {P : Type} {D : Driver P} (data : list byte)
  : M P value :=
  fun w =>
    match serial_write (bytes data) w with
    | (w1, Ok n) =>
        (w1, if N.eqb n 0 then Ok VNone else Ok (VInt (Z.of_N n)))
    | (w1, Raise e) =>
        if is_SerialException e then (fst (close w1), Raise e)
        else (w1, Raise e)
    | (w1, Pending) => (w1, Pending)
    end.

(** The session objects and the event loop are as they were. *)
Definition same_env {P : Type} (w w' : World P) : Prop :=
  sessions w' = sessions w /\ loop w' = loop w.

Definition is_close (ev : Event) : bool :=
  match ev with
  | EvClose _ => true
  | _ => false
  end.

Definition is_sleep (ev : Event) : bool :=
  match ev with
  | EvSleep _ => true
  | _ => false
  end.

(** The number of driver [close] calls in a stretch of the trace. *)
Definition count_closes (evs : list Event) : nat :=
  List.length (filter is_close evs).

(** The number of suspensions in a stretch of the trace. *)
Definition count_sleeps (evs : list Event) : nat :=
  List.length (filter is_sleep evs).

(** The computation [m] has the driver's close called once when it raises a
    SerialException and not at all otherwise. *)
Definition closes_on_fault {P A : Type} (m : M P A) : Prop :=
  forall w, exists evs,
    trace (fst (m w)) = trace w ++ evs
    /\ count_closes evs = match snd (m w) with
                          | Raise e => if is_SerialException e then 1%nat
                                       else 0%nat
                          | _ => 0%nat
                          end.

(** The number of driver close calls an operation is due, given whether the
    adapter holds a handle and how the operation ended. *)
Definition closes_due (op : Operation) (has_handle : bool)
  (res : result answer) : nat :=
  match op with
  | OpClose => if has_handle then 1%nat else 0%nat
  | OpWrite _ | OpRead _ | OpReadUntil _ _ _ =>
      match res with
      | Raise e => if is_SerialException e then 1%nat else 0%nat
      | _ => 0%nat
      end
  | OpResetInputBuffer | OpGetSerial => 0%nat
  end.

(** What an operation that returns can hand back. *)
Definition well_shaped {P : Type} (op : Operation) (w : World P)
  (a : answer) : Prop :=
  match op with
  | OpWrite _ =>
      a = AValue VNone \/ exists n, 0 < n /\ a = AValue (VInt n)
  | OpRead size =>
      if N.eqb size 1
      then exists c, 0 <= c <= 255 /\ a = AValue (VInt c)
      else exists l, a = AValue (VList l)
  | OpReadUntil _ _ timeout =>
      (truthy_timeout timeout = true /\ a = AValue VNone)
      \/ exists l, a = AValue (VList l)
  | OpResetInputBuffer | OpClose => a = AValue VNone
  | OpGetSerial => a = AHandle (my_serial (self w))
  end.

(** A driver whose poll and whose read-until call always come back, with a
    value or an exception. *)
Definition responsive (P : Type) {D : Driver P} : Prop :=
  (forall p, snd (drv_in_waiting p) <> Pending)
  /\ (forall expected size p, snd (drv_read_until expected size p) <> Pending).

(** The number of polls [read_until] makes before its deadline of [t] has
    passed, the polls being [d] apart: the first poll later than [t] is poll
    number [polls_in_time t d], counted from 0. *)
Definition polls_in_time (t d : Z) : nat := S (Z.to_nat (Z.max 0 t / d)).

(** A host that does not wake the adapter early: by the poll that follows
    [k] suspensions its wall clock has advanced by at least the time those
    suspensions asked for. *)
Definition punctual {P : Type} {D : Driver P} (w : World P) : Prop :=
  forall k,
    Z.of_nat k * Z.max 0 (sleep_tune (self w))
    <= now (fst (serial_in_waiting (idles k (sleep_tune (self w)) w)))
       - now w.

(** An ASCII digit, ['0'] to ['9']. *)
Definition is_digit (b : byte) : bool :=
  ((48 <=? Byte.to_N b) && (Byte.to_N b <=? 57))%N.

(** For the byte value [n]: the delimiter [read_until] makes of it is one to
    three digits and is not the one byte of that value. *)
Definition delimiter_is_text (n : nat) : bool :=
  let delimiter := encode (str (Z.of_nat n)) in
  forallb is_digit delimiter
  && (1 <=? List.length delimiter)%nat
  && (List.length delimiter <=? 3)%nat
  && match Byte.of_N (N.of_nat n) with
     | Some b => negb (bytes_eqb delimiter [b])
     | None => false
     end.

(** A port that reports one byte waiting and yields none when read, as when
    a second reader of the same port got there first. *)
Inductive StarvedPort : Type := starved_port.

#[global] Instance StarvedDriver : Driver StarvedPort := {
  drv_write := fun data p => (p, Ok (N.of_nat (List.length data)));
  drv_in_waiting := fun p => (p, Ok 1%N);
  drv_read := fun _ p => (p, Ok []);
  drv_read_until := fun _ _ p => (p, Ok []);
  drv_reset_input_buffer := fun p => (p, Ok tt);
  drv_close := fun p => p;
  drv_elapse := fun _ p => p
}.

(** The default adapter over the starved port. *)
Definition starved_world : World StarvedPort :=
  {| self := default_adapter None;
     ports := fun _ => starved_port;
     sessions := fun _ => {| the_task := None |};
     loop := {| loop_stopped := false; loop_closed := false |};
     clock := 0;
     trace := [];
     wall := slept |}.

(** The default adapter over an open, empty port, on a host that takes 1000
    microseconds over every suspension, whatever time was asked for. *)
Definition sluggish_world : World FakeSerial :=
  {| self := default_adapter None;
     ports := fun _ => preloaded [];
     sessions :=
       fun _ => {| the_task := Some {| cancel_requested := false |} |};
     loop := {| loop_stopped := false; loop_closed := false |};
     clock := 0;
     trace := [];
     wall := fun evs => 1000 * Z.of_nat (count_sleeps evs) |}.

(** * Properties *)

Create HintDb frame.

Section AdapterTheory.

Context {P : Type} {D : Driver P}.

#[local] Abbreviation World := (World P).
#[local] Abbreviation M := (M P).

Implicit Types (w : World) (d : Z) (k fuel : nat).

(** ** What a driver call leaves alone *)

Lemma serial_call_frame {A : Type} (f : P -> P * result A) ev w :
  self (fst (serial_call f ev w)) = self w
  /\ clock (fst (serial_call f ev w)) = clock w
  /\ sessions (fst (serial_call f ev w)) = sessions w
  /\ loop (fst (serial_call f ev w)) = loop w.
Proof.
  unfold serial_call.
  destruct (my_serial (self w)) as [r|]; [|now simpl].
  destruct (f (ports w r)) as [p' res]. now simpl.
Qed.

Lemma idle_self d w : self (idle d w) = self w.
Proof.
  unfold idle, serial_in_waiting. simpl.
  apply (serial_call_frame drv_in_waiting EvInWaiting w).
Qed.

Lemma idle_clock d w : clock (idle d w) = clock w + Z.max 0 d.
Proof.
  unfold idle, serial_in_waiting. simpl.
  now rewrite (proj1 (proj2 (serial_call_frame drv_in_waiting EvInWaiting w))).
Qed.

Lemma idles_self k : forall d w, self (idles k d w) = self w.
Proof.
  induction k as [|k IH]; intros d w; simpl; [reflexivity|].
  now rewrite IH, idle_self.
Qed.

Lemma idles_clock k : forall d w,
  clock (idles k d w) = clock w + Z.of_nat k * Z.max 0 d.
Proof.
  induction k as [|k IH]; intros d w.
  - simpl. lia.
  - cbn [idles]. rewrite IH, idle_clock. lia.
Qed.

Lemma idles_snoc k : forall d w, idles (S k) d w = idle d (idles k d w).
Proof.
  induction k as [|k IH]; intros d w; [reflexivity|].
  cbn [idles] in *. now rewrite <- IH.
Qed.

Lemma quiet_le k : forall j d w,
  (j <= k)%nat -> quiet k d w = true -> quiet j d w = true.
Proof.
  induction k as [|k IH]; intros j d w Hj Hq.
  - now replace j with O by lia.
  - destruct j as [|j]; [reflexivity|].
    cbn [quiet] in *. apply andb_true_iff in Hq as [Hp Hq].
    rewrite Hp. simpl. apply IH; [lia|assumption].
Qed.

Lemma quiet_snoc k : forall d w,
  quiet (S k) d w = quiet k d w && poll_empty (idles k d w).
Proof.
  induction k as [|k IH]; intros d w.
  - simpl. now rewrite andb_true_r.
  - cbn [quiet idles] in *. rewrite IH. now rewrite andb_assoc.
Qed.

(** ** One iteration of the poll loops *)

(** The poll of [w]: the world after it and what the driver answered. *)
Lemma poll_empty_inv w :
  poll_empty w = true ->
  exists r, my_serial (self w) = Some r
            /\ serial_in_waiting w
               = (log (EvInWaiting r (Ok 0%N))
                      (set_port r (fst (drv_in_waiting (ports w r))) w),
                  Ok 0%N).
Proof.
  unfold poll_empty, serial_in_waiting, serial_call.
  destruct (my_serial (self w)) as [r|]; [|discriminate].
  destruct (drv_in_waiting (ports w r)) as [p' res] eqn:E. simpl.
  destruct res as [n| |]; try discriminate.
  unfold truthy. rewrite negb_involutive. intros Hn.
  apply N.eqb_eq in Hn. subst n. exists r. now rewrite E.
Qed.

Lemma read_body_idle size w :
  poll_empty w = true ->
  read_body size w = (idle (sleep_tune (self w) * 2) w, Ok None).
Proof.
  intros Hp. destruct (poll_empty_inv w Hp) as (r & Hr & Hcall).
  unfold read_body, try_except, bind, idle. rewrite Hcall. reflexivity.
Qed.

Lemma read_until_body_idle expected size timeout st w :
  poll_empty w = true ->
  snd (deadline_passed timeout st (fst (serial_in_waiting w))) = Ok false ->
  read_until_body expected size timeout st w
  = (idle (sleep_tune (self w)) w, Ok None).
Proof.
  intros Hp Hd. destruct (poll_empty_inv w Hp) as (r & Hr & Hcall).
  unfold read_until_body, try_except, bind, idle. rewrite Hcall in *.
  simpl in *. revert Hd. unfold deadline_passed.
  destruct timeout as [t|]; [|reflexivity].
  destruct (truthy_timeout (Some t)); [|reflexivity].
  unfold bind, time_time, ret. simpl.
  destruct (_ >? t); [discriminate|reflexivity].
Qed.

Lemma read_until_body_expired expected size timeout st w :
  poll_empty w = true ->
  snd (deadline_passed timeout st (fst (serial_in_waiting w))) = Ok true ->
  read_until_body expected size timeout st w
  = (fst (serial_in_waiting w), Ok (Some VNone)).
Proof.
  intros Hp Hd. destruct (poll_empty_inv w Hp) as (r & Hr & Hcall).
  unfold read_until_body, try_except, bind. rewrite Hcall in *.
  simpl in *. revert Hd. unfold deadline_passed.
  destruct timeout as [t|]; [|discriminate].
  destruct (truthy_timeout (Some t)); [|discriminate].
  unfold bind, time_time, ret. simpl.
  destruct (_ >? t); [reflexivity|discriminate].
Qed.

Lemma deadline_passed_falsy timeout st w :
  truthy_timeout timeout = false ->
  deadline_passed (P:=P) timeout st w = (w, Ok false).
Proof.
  unfold deadline_passed. destruct timeout as [t|]; [|reflexivity].
  now intros ->.
Qed.

Lemma deadline_passed_truthy t st w :
  t <> 0 ->
  deadline_passed (P:=P) (Some t) st w = (w, Ok (now w - st >? t)).
Proof.
  intros Ht. unfold deadline_passed, truthy_timeout.
  apply Z.eqb_neq in Ht. now rewrite Ht.
Qed.

(** A body that does not ask for another iteration ends the loop. *)
Lemma while_true_stop {A : Type} (body : M (option A)) fuel w :
  snd (body w) <> Ok None ->
  while_true (S fuel) body w = while_true 1 body w.
Proof.
  intros Hb. cbn [while_true].
  destruct (body w) as [w1 [[a|]|e|]]; try reflexivity.
  now elim Hb.
Qed.

Lemma while_true_continue {A : Type} (body : M (option A)) fuel w w1 :
  body w = (w1, Ok None) ->
  while_true (S fuel) body w = while_true fuel body w1.
Proof. intros Hb. cbn [while_true]. now rewrite Hb. Qed.

(** A poll that finds something, or fails, ends the loop of [read]. *)
Lemma read_body_busy size w :
  poll_empty w = false -> snd (read_body size w) <> Ok None.
Proof.
  unfold poll_empty, read_body, try_except, bind, serial_in_waiting,
    serial_read, serial_call, close_and_reraise, close, serial_close,
    serial_call, get_self, bind, raise, ret, lift_result.
  destruct (my_serial (self w)) as [r|] eqn:Hr; [|discriminate].
  destruct (drv_in_waiting (ports w r)) as [p1 [n|e|]]; simpl.
  - intros Hn. rewrite Hn. simpl. rewrite Hr. simpl.
    destruct (drv_read size _) as [p2 [data|e|]]; simpl.
    + destruct (N.eqb size 1); [|discriminate].
      destruct (ord data) as [c|e|]; simpl; try discriminate.
      destruct (is_SerialException e); simpl; [|discriminate].
      repeat (rewrite Hr; simpl). discriminate.
    + destruct (is_SerialException e); simpl; [|discriminate].
      repeat (rewrite Hr; simpl). discriminate.
    + discriminate.
  - intros _. destruct (is_SerialException e); simpl; [|discriminate].
    repeat (rewrite Hr; simpl). discriminate.
  - discriminate.
Qed.

(** The loop of [read]: either every poll so far found nothing and the loop
    is still running, or the first poll that did not find the buffer empty
    decides the outcome. *)
Lemma read_split size fuel : forall d w,
  sleep_tune (self w) * 2 = d ->
  (quiet fuel d w = true /\ read fuel size w = (idles fuel d w, Pending))
  \/ (exists k, (k < fuel)%nat /\ quiet k d w = true
                /\ poll_empty (idles k d w) = false
                /\ read fuel size w = read 1 size (idles k d w)).
Proof.
  induction fuel as [|fuel IH]; intros d w Hd.
  - left. split; reflexivity.
  - destruct (poll_empty w) eqn:Hp.
    + unfold read.
      rewrite (while_true_continue _ _ _ _ (read_body_idle size w Hp)).
      rewrite Hd. fold (read fuel size (idle d w)).
      destruct (IH d (idle d w)) as [[Hq Hr]|(k & Hk & Hq & Hb & Hr)].
      * now rewrite idle_self.
      * left. cbn [quiet idles]. rewrite Hp, Hq. now split.
      * right. exists (S k). cbn [quiet idles]. rewrite Hp, Hq.
        repeat split; [lia|assumption|assumption].
    + right. exists O. repeat split; [lia|assumption|].
      apply while_true_stop. now apply read_body_busy.
Qed.

Lemma read_quiet size k w :
  quiet k (sleep_tune (self w) * 2) w = true ->
  read k size w = (idles k (sleep_tune (self w) * 2) w, Pending).
Proof.
  intros Hq.
  destruct (read_split size k _ w eq_refl) as [[_ Hr]|(j & Hj & _ & Hb & _)];
    [assumption|].
  assert (Hq' : quiet (S j) (sleep_tune (self w) * 2) w = true)
    by (apply (quiet_le k); [lia|assumption]).
  rewrite quiet_snoc, Hb, andb_false_r in Hq'. discriminate.
Qed.

(** What [read] can hand back from the iteration that ends the loop. *)
Lemma read_body_not_None size w : snd (read_body size w) <> Ok (Some VNone).
Proof.
  unfold read_body, try_except, bind, serial_in_waiting,
    serial_read, serial_call, close_and_reraise, close, serial_close,
    serial_call, get_self, bind, raise, ret, lift_result, sleep.
  destruct (my_serial (self w)) as [r|] eqn:Hr; [|discriminate].
  destruct (drv_in_waiting (ports w r)) as [p1 [n|e|]]; simpl.
  - destruct (negb (truthy n)); simpl; [discriminate|]. rewrite Hr. simpl.
    destruct (drv_read size _) as [p2 [data|e|]]; simpl.
    + destruct (N.eqb size 1); [|discriminate].
      destruct (ord data) as [c|e|]; simpl; try discriminate.
      destruct (is_SerialException e); simpl; [|discriminate].
      repeat (rewrite Hr; simpl). discriminate.
    + destruct (is_SerialException e); simpl; [|discriminate].
      repeat (rewrite Hr; simpl). discriminate.
    + discriminate.
  - destruct (is_SerialException e); simpl; [|discriminate].
    repeat (rewrite Hr; simpl). discriminate.
  - discriminate.
Qed.

Lemma while_true_one {A : Type} (body : M (option A)) w a :
  snd (while_true 1 body w) = Ok a -> snd (body w) = Ok (Some a).
Proof.
  cbn [while_true]. destruct (body w) as [w1 [[a'|]|e|]]; simpl; congruence.
Qed.

Lemma read_never_None size fuel w : snd (read fuel size w) <> Ok VNone.
Proof.
  destruct (read_split size fuel _ w eq_refl) as [[_ Hr]|(j & _ & _ & _ & Hr)];
    rewrite Hr; [discriminate|].
  intros H. apply while_true_one in H. now apply read_body_not_None in H.
Qed.

(** ** The loop of [read_until] *)

Lemma deadline_passed_expired timeout st w :
  deadline_passed (P:=P) timeout st (fst (serial_in_waiting w))
  = (fst (serial_in_waiting w), Ok (expired timeout st w)).
Proof.
  unfold deadline_passed, expired. destruct timeout as [t|]; [|reflexivity].
  destruct (truthy_timeout (Some t)); reflexivity.
Qed.

(** The deadline test reads the clock and changes nothing. *)
Lemma deadline_passed_pure timeout st w :
  exists b, deadline_passed (P:=P) timeout st w = (w, Ok b).
Proof.
  unfold deadline_passed. destruct timeout as [t|]; [|now exists false].
  destruct (truthy_timeout (Some t)); [|now exists false].
  now eexists.
Qed.

Lemma read_until_body_quiet expected size timeout st w :
  poll_empty w = true ->
  read_until_body expected size timeout st w
  = if expired timeout st w
    then (fst (serial_in_waiting w), Ok (Some VNone))
    else (idle (sleep_tune (self w)) w, Ok None).
Proof.
  intros Hp. destruct (expired timeout st w) eqn:He.
  - apply read_until_body_expired; [assumption|].
    now rewrite deadline_passed_expired, He.
  - apply read_until_body_idle; [assumption|].
    now rewrite deadline_passed_expired, He.
Qed.

(** A poll that finds something, or fails, ends the loop of [read_until],
    and not with the no-result signal. *)
Lemma read_until_body_busy expected size timeout st w :
  poll_empty w = false ->
  snd (read_until_body expected size timeout st w) <> Ok None
  /\ snd (read_until_body expected size timeout st w) <> Ok (Some VNone).
Proof.
  unfold poll_empty, read_until_body, try_except, bind, serial_in_waiting,
    serial_read_until, serial_call, close_and_reraise, close, serial_close,
    serial_call, get_self, bind, raise, ret, lift_result.
  destruct (my_serial (self w)) as [r|] eqn:Hr; [|split; discriminate].
  destruct (drv_in_waiting (ports w r)) as [p1 [n|e|]]; simpl.
  - intros Hn. rewrite Hn. simpl. rewrite Hr. simpl.
    destruct (drv_read_until _ _ _) as [p2 [data|e|]]; simpl;
      [split; discriminate| |split; discriminate].
    destruct (is_SerialException e); simpl; [|split; discriminate].
    repeat (rewrite Hr; simpl). split; discriminate.
  - intros _. destruct (is_SerialException e); simpl; [|split; discriminate].
    repeat (rewrite Hr; simpl). split; discriminate.
  - split; discriminate.
Qed.

Lemma calm_quiet k : forall d timeout st w,
  calm k d timeout st w = true -> quiet k d w = true.
Proof.
  induction k as [|k IH]; intros d timeout st w; [reflexivity|].
  cbn [calm quiet]. rewrite !andb_true_iff. intros [[Hp _] Hc].
  split; [assumption|]. now apply (IH d timeout st).
Qed.

Lemma calm_snoc k : forall d timeout st w,
  calm (S k) d timeout st w
  = calm k d timeout st w
    && (poll_empty (idles k d w) && negb (expired timeout st (idles k d w))).
Proof.
  induction k as [|k IH]; intros d timeout st w.
  - simpl. now rewrite andb_true_r.
  - cbn [calm idles] in *. rewrite IH. now rewrite !andb_assoc.
Qed.

(** The three ways the loop of [read_until] can stand after [fuel]
    iterations that started at [w] with the deadline counted from [st]. *)
Lemma read_until_split expected size timeout st fuel : forall d w,
  sleep_tune (self w) = d ->
  let run := fun n => while_true n (read_until_body expected size timeout st) in
  (calm fuel d timeout st w = true /\ run fuel w = (idles fuel d w, Pending))
  \/ (exists k, (k < fuel)%nat /\ calm k d timeout st w = true
                /\ poll_empty (idles k d w) = true
                /\ expired timeout st (idles k d w) = true
                /\ run fuel w
                   = (fst (serial_in_waiting (idles k d w)), Ok VNone))
  \/ (exists k, (k < fuel)%nat /\ calm k d timeout st w = true
                /\ poll_empty (idles k d w) = false
                /\ run fuel w = run 1%nat (idles k d w)).
Proof.
  induction fuel as [|fuel IH]; intros d w Hd run.
  - left. split; reflexivity.
  - destruct (poll_empty w) eqn:Hp.
    + pose proof (read_until_body_quiet expected size timeout st w Hp) as Hb.
      destruct (expired timeout st w) eqn:He.
      * right; left. exists O. repeat split; [lia|assumption|assumption|].
        unfold run. cbn [while_true idles]. now rewrite Hb.
      * unfold run. rewrite (while_true_continue _ _ _ _ Hb). rewrite Hd.
        destruct (IH d (idle d w)) as
          [[Hq Hr]|[(k & Hk & Hq & Hpk & Hek & Hr)|(k & Hk & Hq & Hpk & Hr)]].
        -- now rewrite idle_self.
        -- left. cbn [calm idles]. rewrite Hp, He, Hq. now split.
        -- right; left. exists (S k). cbn [calm idles]. rewrite Hp, He, Hq.
           repeat split; [lia|assumption|assumption|assumption].
        -- right; right. exists (S k). cbn [calm idles]. rewrite Hp, He, Hq.
           repeat split; [lia|assumption|assumption].
    + right; right. exists O. repeat split; [lia|assumption|].
      apply while_true_stop.
      now apply read_until_body_busy.
Qed.

Lemma read_until_unfold fuel expected size timeout w :
  read_until fuel expected size timeout w
  = while_true fuel
      (read_until_body (encode (str expected)) size timeout (now w)) w.
Proof. reflexivity. Qed.

Lemma expired_falsy timeout st w :
  truthy_timeout timeout = false -> expired timeout st w = false.
Proof.
  unfold expired. destruct timeout as [t|]; [|reflexivity]. now intros ->.
Qed.

Lemma quiet_calm_falsy k : forall d timeout st w,
  truthy_timeout timeout = false ->
  quiet k d w = true -> calm k d timeout st w = true.
Proof.
  induction k as [|k IH]; intros d timeout st w Ht; [reflexivity|].
  cbn [calm quiet]. rewrite (expired_falsy _ _ _ Ht), !andb_true_iff.
  intros [Hp Hq]. repeat split; [assumption|]. now apply IH.
Qed.

(** ** Traces of quiet polls *)

Lemma idle_trace r d w :
  my_serial (self w) = Some r -> poll_empty w = true ->
  trace (idle d w) = trace w ++ [EvInWaiting r (Ok 0%N); EvSleep d].
Proof.
  intros Hr Hp. destruct (poll_empty_inv w Hp) as (r' & Hr' & Hcall).
  assert (r' = r) by congruence. subst r'.
  unfold idle. rewrite Hcall. simpl. now rewrite <- app_assoc.
Qed.

Lemma idles_trace r k : forall d w,
  my_serial (self w) = Some r -> quiet k d w = true ->
  trace (idles k d w) = trace w ++ idle_events r d k.
Proof.
  induction k as [|k IH]; intros d w Hr Hq.
  - simpl. now rewrite app_nil_r.
  - cbn [quiet] in Hq. apply andb_true_iff in Hq as [Hp Hq].
    cbn [idles idle_events]. rewrite IH; [|now rewrite idle_self|assumption].
    rewrite (idle_trace r d w Hr Hp). now rewrite <- app_assoc.
Qed.

Lemma count_reads_idle_events r d k : count_reads (idle_events r d k) = O.
Proof. induction k as [|k IH]; [reflexivity|exact IH]. Qed.

Lemma count_read_untils_idle_events r d k :
  count_read_untils (idle_events r d k) = O.
Proof. induction k as [|k IH]; [reflexivity|exact IH]. Qed.

Lemma count_reads_app evs1 evs2 :
  count_reads (evs1 ++ evs2) = (count_reads evs1 + count_reads evs2)%nat.
Proof. unfold count_reads. now rewrite filter_app, length_app. Qed.

Lemma count_read_untils_app evs1 evs2 :
  count_read_untils (evs1 ++ evs2)
  = (count_read_untils evs1 + count_read_untils evs2)%nat.
Proof. unfold count_read_untils. now rewrite filter_app, length_app. Qed.

(** ** The iteration of [read] that returns *)

Lemma read_body_returns size w w' v :
  read_body size w = (w', Ok (Some v)) ->
  exists r n p1 data p2,
    my_serial (self w) = Some r
    /\ drv_in_waiting (ports w r) = (p1, Ok n) /\ n <> 0%N
    /\ drv_read size p1 = (p2, Ok data)
    /\ w' = log (EvRead r size (Ok data))
               (set_port r p2 (log (EvInWaiting r (Ok n)) (set_port r p1 w)))
    /\ ((size = 1%N /\ exists b, data = [b] /\ v = VInt (Z.of_N (Byte.to_N b)))
        \/ (size <> 1%N /\ v = VList data)).
Proof.
  unfold read_body, try_except, bind, serial_in_waiting,
    serial_read, serial_call, close_and_reraise, close, serial_close,
    serial_call, get_self, bind, raise, ret, lift_result, sleep.
  destruct (my_serial (self w)) as [r|] eqn:Hr; [|discriminate].
  destruct (drv_in_waiting (ports w r)) as [p1 [n|e|]] eqn:Hw; simpl.
  - destruct (negb (truthy n)) eqn:Hn; simpl; [discriminate|].
    rewrite Hr. simpl.
    unfold upd at 1. rewrite Nat.eqb_refl.
    destruct (drv_read size p1) as [p2 [data|e|]] eqn:Hd; simpl.
    + intros H. exists r, n, p1, data, p2.
      assert (Hn0 : n <> 0%N).
      { unfold truthy in Hn. rewrite negb_involutive in Hn.
        now apply N.eqb_neq. }
      destruct (N.eqb_spec size 1) as [Hs|Hs].
      * destruct data as [|b [|b' data]]; simpl in H; try discriminate.
        injection H as <- <-. repeat split; try assumption.
        left. split; [assumption|]. now exists b.
      * injection H as <- <-. repeat split; try assumption.
        right. now split.
    + destruct (is_SerialException e); simpl; [|discriminate].
      repeat (rewrite Hr; simpl). discriminate.
    + discriminate.
  - destruct (is_SerialException e); simpl; [|discriminate].
    repeat (rewrite Hr; simpl). discriminate.
  - discriminate.
Qed.

Lemma read_until_falsy_pending w expected size timeout fuel :
  truthy_timeout timeout = false ->
  (forall k, quiet k (sleep_tune (self w)) w = true) ->
  read_until fuel expected size timeout w
  = (idles fuel (sleep_tune (self w)) w, Pending).
Proof.
  intros Ht Hq. rewrite read_until_unfold.
  destruct (read_until_split (encode (str expected)) size timeout (now w)
              fuel _ w eq_refl)
    as [[_ Hr]|[(k & _ & _ & _ & He & _)|(k & _ & _ & Hp & _)]].
  - exact Hr.
  - now rewrite (expired_falsy _ _ _ Ht) in He.
  - specialize (Hq (S k)). rewrite quiet_snoc, Hp, andb_false_r in Hq.
    discriminate.
Qed.

(** C9: when [timeout] is 0 or None the deadline test is never taken, so
    against a port that never reports data [read_until] is still polling after
    any number of iterations; it never hands back the no-result signal. *)
Theorem read_until_falsy_timeout_polls_forever :
  forall w expected size timeout,
    truthy_timeout timeout = false ->
    (forall k, quiet k (sleep_tune (self w)) w = true) ->
    forall fuel,
      read_until fuel expected size timeout w
      = (idles fuel (sleep_tune (self w)) w, Pending)
      /\ snd (read_until fuel expected size timeout w) <> Ok VNone.
Proof.
  intros w expected size timeout Ht Hq fuel.
  rewrite (read_until_falsy_pending w expected size timeout fuel Ht Hq).
  split; [reflexivity|discriminate].
Qed.


(** C7 (amended): [read] has no timeout.  While the polls find nothing, each
    iteration suspends once, for [sleep_tune * 2], and the loop is still
    running after any number of iterations; it never hands back None, and it
    stops only at a poll that did not find the buffer empty (data, or a
    failed call). *)
Theorem read_polls_without_timeout :
  forall w size k,
    quiet k (sleep_tune (self w) * 2) w = true ->
    let d := sleep_tune (self w) * 2 in
    read k size w = (idles k d w, Pending)
    /\ clock (idles k d w) = clock w + Z.of_nat k * Z.max 0 d
    /\ (forall r, my_serial (self w) = Some r ->
                  trace (idles k d w) = trace w ++ idle_events r d k)
    /\ (forall fuel, snd (read fuel size w) <> Ok VNone)
    /\ (forall fuel, snd (read fuel size w) <> Pending ->
          exists j, (j < fuel)%nat /\ quiet j d w = true
                    /\ poll_empty (idles j d w) = false).
Proof.
  intros w size k Hq d. repeat split.
  - now apply read_quiet.
  - apply idles_clock.
  - intros r Hr. now apply idles_trace.
  - intros fuel. apply read_never_None.
  - intros fuel Hne.
    destruct (read_split size fuel _ w eq_refl)
      as [[_ Hr]|(j & Hj & Hqj & Hb & _)].
    + rewrite Hr in Hne. now elim Hne.
    + now exists j.
Qed.

(** ** The no-result signal of [read_until] *)

(** The loop hands back None exactly from a poll that found nothing past the
    deadline, all the polls before it having found nothing in time. *)
Lemma read_until_None_inv fuel expected size timeout w w' :
  read_until fuel expected size timeout w = (w', Ok VNone) ->
  exists k, (k < fuel)%nat
            /\ calm k (sleep_tune (self w)) timeout (now w) w = true
            /\ poll_empty (idles k (sleep_tune (self w)) w) = true
            /\ expired timeout (now w) (idles k (sleep_tune (self w)) w)
               = true
            /\ w' = fst (serial_in_waiting (idles k (sleep_tune (self w)) w)).
Proof.
  rewrite read_until_unfold. intros H.
  destruct (read_until_split (encode (str expected)) size timeout (now w)
              fuel _ w eq_refl)
    as [[_ Hr]|[(k & Hk & Hc & Hp & He & Hr)|(k & _ & _ & Hp & Hr)]].
  - rewrite Hr in H. discriminate.
  - exists k. rewrite Hr in H. repeat split; try assumption. congruence.
  - rewrite Hr in H.
    assert (Hs : snd (while_true 1
                        (read_until_body (encode (str expected)) size timeout
                           (now w)) (idles k (sleep_tune (self w)) w))
                 = Ok VNone) by now rewrite H.
    apply while_true_one in Hs.
    destruct (read_until_body_busy (encode (str expected)) size timeout
                (now w) _ Hp) as [_ Hn].
    now elim Hn.
Qed.

Lemma read_until_expires expected size timeout k w :
  quiet (S k) (sleep_tune (self w)) w = true ->
  expired timeout (now w) (idles k (sleep_tune (self w)) w) = true ->
  snd (read_until (S k) expected size timeout w) = Ok VNone.
Proof.
  intros Hq He. rewrite read_until_unfold.
  destruct (read_until_split (encode (str expected)) size timeout (now w)
              (S k) _ w eq_refl)
    as [[Hc _]|[(j & _ & _ & _ & _ & Hr)|(j & Hj & _ & Hp & _)]].
  - rewrite calm_snoc, He, !andb_false_r in Hc. discriminate.
  - now rewrite Hr.
  - assert (Hq' : quiet (S j) (sleep_tune (self w)) w = true)
      by (apply (quiet_le (S k)); [lia|assumption]).
    rewrite quiet_snoc, Hp, andb_false_r in Hq'. discriminate.
Qed.

(** C4 (amended): for a timeout other than 0 and None, [read_until] hands
    back None exactly when some poll finds the deadline, counted from the one
    reading taken at entry, elapsed and, like every poll before it, finds no
    data.  None is a value and not an exception, and differs from the empty
    list.  No suspension starts after a poll has found the deadline elapsed:
    every poll before the last found it not elapsed and was followed by one
    suspension of [sleep_tune], and the last poll is followed by the
    return. *)
Theorem read_until_no_result_iff_deadline :
  forall w expected size t,
    t <> 0 ->
    let d := sleep_tune (self w) in
    ((exists fuel, snd (read_until fuel expected size (Some t) w) = Ok VNone)
     <-> (exists k, quiet (S k) d w = true
                    /\ expired (Some t) (now w) (idles k d w) = true))
    /\ (forall fuel w',
          read_until fuel expected size (Some t) w = (w', Ok VNone) ->
          exists k r,
            my_serial (self w) = Some r
            /\ calm k d (Some t) (now w) w = true
            /\ poll_empty (idles k d w) = true
            /\ expired (Some t) (now w) (idles k d w) = true
            /\ trace w' = trace w ++ idle_events r d k
                          ++ [EvInWaiting r (Ok 0%N)]
            /\ count_sleeps (idle_events r d k ++ [EvInWaiting r (Ok 0%N)])
               = k)
    /\ Ok VNone <> Ok (VList []).
Proof.
  intros w expected size t Ht d. repeat split.
  - intros [fuel H].
    destruct (read_until fuel expected size (Some t) w) as [w' res] eqn:E.
    simpl in H. subst res.
    apply read_until_None_inv in E as (k & _ & Hc & Hp & He & _).
    fold d in Hc, Hp, He. exists k. split; [|exact He].
    now rewrite quiet_snoc, Hp, (calm_quiet _ _ _ _ _ Hc).
  - intros (k & Hq & He). exists (S k). now apply read_until_expires.
  - intros fuel w' H.
    apply read_until_None_inv in H as (k & _ & Hc & Hp & He & ->).
    fold d in Hc, Hp, He. fold d.
    destruct (poll_empty_inv _ Hp) as (r & Hs & Hcall).
    rewrite idles_self in Hs. pose proof (calm_quiet _ _ _ _ _ Hc) as Hq.
    exists k, r. repeat split; try assumption.
    + rewrite Hcall. simpl. rewrite (idles_trace r k d w Hs Hq).
      now rewrite <- app_assoc.
    + clear. unfold count_sleeps. rewrite filter_app, length_app. simpl.
      rewrite Nat.add_0_r. induction k as [|k IH]; [reflexivity|].
      simpl. now rewrite IH.
  - discriminate.
Qed.

(** ** The iteration of [read_until] that returns *)

Lemma read_until_body_returns expected size timeout st w w' v :
  poll_empty w = false ->
  read_until_body expected size timeout st w = (w', Ok (Some v)) ->
  exists r n p1 data p2,
    my_serial (self w) = Some r
    /\ drv_in_waiting (ports w r) = (p1, Ok n) /\ n <> 0%N
    /\ drv_read_until expected size p1 = (p2, Ok data)
    /\ w' = log (EvReadUntil r expected size (Ok data))
               (set_port r p2 (log (EvInWaiting r (Ok n)) (set_port r p1 w)))
    /\ v = VList data.
Proof.
  unfold poll_empty, read_until_body, try_except, bind, serial_in_waiting,
    serial_read_until, serial_call, close_and_reraise, close, serial_close,
    serial_call, get_self, bind, raise, ret, lift_result.
  destruct (my_serial (self w)) as [r|] eqn:Hr; [|discriminate].
  destruct (drv_in_waiting (ports w r)) as [p1 [n|e|]] eqn:Hw; simpl.
  - intros Hn. rewrite Hn. simpl. rewrite Hr. simpl.
    unfold upd at 1. rewrite Nat.eqb_refl.
    destruct (drv_read_until expected size p1) as [p2 [data|e|]] eqn:Hd; simpl.
    + intros H. injection H as <- <-. exists r, n, p1, data, p2.
      repeat split; try assumption.
      unfold truthy in Hn. rewrite negb_involutive in Hn.
      now apply N.eqb_neq.
    + destruct (is_SerialException e); simpl; [|discriminate].
      repeat (rewrite Hr; simpl). discriminate.
    + discriminate.
  - intros _. destruct (is_SerialException e); simpl; [|discriminate].
    repeat (rewrite Hr; simpl). discriminate.
  - discriminate.
Qed.

(** C8 (amended): a [read_until] that returns hands back either None, after
    polls that all found nothing and without any driver read-until call, or
    the bytes of the one driver read-until call made at the first poll that
    found data, exactly as that call produced them, complete line or not. *)
Theorem read_until_returns_what_one_device_call_yields :
  forall fuel expected size timeout w w' v,
    read_until fuel expected size timeout w = (w', Ok v) ->
    let d := sleep_tune (self w) in
    exists k r evs,
      (k < fuel)%nat /\ my_serial (self w) = Some r /\ quiet k d w = true
      /\ trace w' = trace w ++ idle_events r d k ++ evs
      /\ ((v = VNone
           /\ poll_empty (idles k d w) = true
           /\ expired timeout (now w) (idles k d w) = true
           /\ evs = [EvInWaiting r (Ok 0%N)]
           /\ count_read_untils (idle_events r d k ++ evs) = 0%nat)
          \/ (exists n delimiter data,
                v = VList data /\ n <> 0%N
                /\ snd (drv_read_until delimiter size
                          (ports (fst (serial_in_waiting (idles k d w))) r))
                   = Ok data
                /\ evs = [EvInWaiting r (Ok n);
                          EvReadUntil r delimiter size (Ok data)]
                /\ count_read_untils (idle_events r d k ++ evs) = 1%nat)).
Proof.
  intros fuel expected size timeout w w' v H d.
  rewrite read_until_unfold in H.
  destruct (read_until_split (encode (str expected)) size timeout (now w)
              fuel _ w eq_refl)
    as [[_ Hr]|[(k & Hk & Hc & Hp & He & Hr)|(k & Hk & Hc & Hp & Hr)]];
    fold d in Hr; rewrite Hr in H; clear Hr; [discriminate| |].
  - injection H as <- <-. fold d in Hc, Hp, He.
    destruct (poll_empty_inv _ Hp) as (r & Hs & Hcall).
    rewrite idles_self in Hs. pose proof (calm_quiet _ _ _ _ _ Hc) as Hq.
    exists k, r, [EvInWaiting r (Ok 0%N)]. repeat split; try assumption.
    + rewrite Hcall. simpl. rewrite (idles_trace r k d w Hs Hq).
      now rewrite <- app_assoc.
    + left. repeat split; try assumption.
      rewrite count_read_untils_app, count_read_untils_idle_events.
      reflexivity.
  - fold d in Hc, Hp. cbn [while_true] in H.
    destruct (read_until_body _ size timeout (now w) (idles k d w))
      as [w1 [[v1|]|e|]] eqn:Hbody; try discriminate.
    injection H as -> ->.
    apply read_until_body_returns in Hbody
      as (r & n & p1 & data & p2 & Hs & Hw & Hn & Hd & Hw' & Hv);
      [|exact Hp].
    rewrite idles_self in Hs. pose proof (calm_quiet _ _ _ _ _ Hc) as Hq.
    exists k, r, [EvInWaiting r (Ok n);
                  EvReadUntil r (encode (str expected)) size (Ok data)].
    repeat split; try assumption.
    + subst w'. simpl. rewrite (idles_trace r k d w Hs Hq).
      now rewrite <- !app_assoc.
    + right. exists n, (encode (str expected)), data.
      repeat split; try assumption.
      * unfold serial_in_waiting, serial_call. rewrite idles_self, Hs, Hw.
        simpl. unfold upd. rewrite Nat.eqb_refl. now rewrite Hd.
      * rewrite count_read_untils_app, count_read_untils_idle_events.
        reflexivity.
Qed.

(** ** Relations every statement of the adapter preserves *)

Section Preservation.

Variable R : World -> World -> Prop.
Hypothesis R_refl : forall w, R w w.
Hypothesis R_trans : forall w1 w2 w3, R w1 w2 -> R w2 w3 -> R w1 w3.

Lemma preserves_ret {A : Type} (a : A) : preserves R (ret a).
Proof. intros w. apply R_refl. Qed.

Lemma preserves_raise {A : Type} e : preserves R (raise (A:=A) e).
Proof. intros w. apply R_refl. Qed.

Lemma preserves_lift_result {A : Type} (r : result A) :
  preserves R (lift_result r).
Proof. intros w. apply R_refl. Qed.

Lemma preserves_get_self : preserves R get_self.
Proof. intros w. apply R_refl. Qed.

Lemma preserves_time_time : preserves R time_time.
Proof. intros w. apply R_refl. Qed.

Lemma preserves_bind {A B : Type} (m : M A) (k : A -> M B) :
  preserves R m -> (forall a, preserves R (k a)) -> preserves R (bind m k).
Proof.
  intros Hm Hk w. unfold bind. specialize (Hm w).
  destruct (m w) as [w1 [a|e|]]; simpl in *; try assumption.
  apply (R_trans _ w1); [assumption|apply Hk].
Qed.

Lemma preserves_try_except {A : Type} (m : M A) (h : exn -> M A) :
  preserves R m -> (forall e, preserves R (h e)) ->
  preserves R (try_except m h).
Proof.
  intros Hm Hh w. unfold try_except. specialize (Hm w).
  destruct (m w) as [w1 [a|e|]]; simpl in *; try assumption.
  destruct (is_SerialException e); simpl; [|assumption].
  apply (R_trans _ w1); [assumption|apply Hh].
Qed.

Lemma preserves_while_true {A : Type} (body : M (option A)) fuel :
  preserves R body -> preserves R (while_true fuel body).
Proof.
  intros Hb. induction fuel as [|fuel IH]; intros w; [apply R_refl|].
  cbn [while_true]. specialize (Hb w).
  destruct (body w) as [w1 [[a|]|e|]]; simpl in *; try assumption.
  apply (R_trans _ w1); [assumption|apply IH].
Qed.

Lemma preserves_when b (m : M unit) :
  preserves R m -> preserves R (when b m).
Proof. intros Hm. destruct b; [exact Hm|apply preserves_ret]. Qed.

End Preservation.

Lemma same_self_refl w : same_self w w.
Proof. reflexivity. Qed.

Lemma same_self_trans w1 w2 w3 :
  same_self w1 w2 -> same_self w2 w3 -> same_self w1 w3.
Proof. unfold same_self. congruence. Qed.

Lemma trace_grows_refl w : trace_grows w w.
Proof. exists []. now rewrite app_nil_r. Qed.

Lemma trace_grows_trans w1 w2 w3 :
  trace_grows w1 w2 -> trace_grows w2 w3 -> trace_grows w1 w3.
Proof.
  intros [e1 H1] [e2 H2]. exists (e1 ++ e2). now rewrite H2, H1, app_assoc.
Qed.

(** The primitives, for both relations. *)

Lemma same_self_serial_call {A : Type} (f : P -> P * result A) ev :
  preserves same_self (serial_call f ev).
Proof. intros w. apply serial_call_frame. Qed.

Lemma trace_grows_serial_call {A : Type} (f : P -> P * result A) ev :
  preserves trace_grows (serial_call f ev).
Proof.
  intros w. unfold serial_call.
  destruct (my_serial (self w)) as [r|]; [|apply trace_grows_refl].
  destruct (f (ports w r)) as [p' res]. now exists [ev r res].
Qed.

Lemma same_self_sleep d : preserves (P:=P) same_self (sleep d).
Proof. now intros w. Qed.

Lemma trace_grows_sleep d : preserves (P:=P) trace_grows (sleep d).
Proof. intros w. now exists [EvSleep d]. Qed.

Lemma same_self_loop_stop : preserves (P:=P) same_self loop_stop.
Proof. now intros w. Qed.

Lemma trace_grows_loop_stop : preserves (P:=P) trace_grows loop_stop.
Proof. intros w. exists []. simpl. now rewrite app_nil_r. Qed.

Lemma same_self_loop_close : preserves (P:=P) same_self loop_close.
Proof. now intros w. Qed.

Lemma trace_grows_loop_close : preserves (P:=P) trace_grows loop_close.
Proof. intros w. exists []. simpl. now rewrite app_nil_r. Qed.

Lemma same_self_get_the_task : preserves (P:=P) same_self get_the_task.
Proof.
  intros w. unfold get_the_task.
  now destruct (telemetrix_aio_instance (self w)).
Qed.

Lemma trace_grows_get_the_task : preserves (P:=P) trace_grows get_the_task.
Proof.
  intros w. unfold get_the_task.
  destruct (telemetrix_aio_instance (self w)); apply trace_grows_refl.
Qed.

Lemma same_self_task_cancel : preserves (P:=P) same_self task_cancel.
Proof.
  intros w. unfold task_cancel.
  destruct (telemetrix_aio_instance (self w)) as [i|]; [|reflexivity].
  now destruct (the_task (sessions w i)).
Qed.

Lemma trace_grows_task_cancel : preserves (P:=P) trace_grows task_cancel.
Proof.
  intros w. unfold task_cancel.
  destruct (telemetrix_aio_instance (self w)) as [i|];
    [|apply trace_grows_refl].
  destruct (the_task (sessions w i)); [|apply trace_grows_refl].
  exists []. simpl. now rewrite app_nil_r.
Qed.

#[local] Hint Resolve same_self_refl same_self_trans trace_grows_refl
  trace_grows_trans preserves_ret preserves_raise preserves_lift_result
  preserves_get_self preserves_time_time same_self_serial_call
  trace_grows_serial_call same_self_sleep trace_grows_sleep
  same_self_loop_stop trace_grows_loop_stop same_self_loop_close
  trace_grows_loop_close same_self_get_the_task trace_grows_get_the_task
  same_self_task_cancel trace_grows_task_cancel : frame.

(** Walks down a coroutine, statement by statement. *)
Ltac frame :=
  repeat first
    [ solve [eauto with frame]
    | progress intros
    | apply preserves_bind
    | apply preserves_try_except
    | apply preserves_while_true
    | apply preserves_when
    | match goal with
      | |- preserves _ (if ?b then _ else _) => destruct b
      | |- preserves _ (match ?x with _ => _ end) => destruct x
      end ].

Lemma same_self_close : preserves (P:=P) same_self close.
Proof. unfold close, serial_close. frame. Qed.

Lemma trace_grows_close : preserves (P:=P) trace_grows close.
Proof. unfold close, serial_close. frame. Qed.

#[local] Hint Resolve same_self_close trace_grows_close : frame.

Lemma preserves_write R fuel data :
  R = same_self \/ R = trace_grows -> preserves (P:=P) R (write fuel data).
Proof.
  intros [-> | ->]; unfold write, serial_write; frame.
Qed.

Lemma preserves_read_body R size :
  R = same_self \/ R = trace_grows -> preserves (P:=P) R (read_body size).
Proof.
  intros [-> | ->];
    unfold read_body, close_and_reraise, serial_in_waiting, serial_read;
    frame.
Qed.

Lemma preserves_read_until_body R expected size timeout st :
  R = same_self \/ R = trace_grows ->
  preserves (P:=P) R (read_until_body expected size timeout st).
Proof.
  intros [-> | ->];
    unfold read_until_body, deadline_passed, close_and_reraise,
      serial_in_waiting, serial_read_until;
    frame.
Qed.

Lemma preserves_run_op R op fuel :
  R = same_self \/ R = trace_grows -> preserves (P:=P) R (run_op op fuel).
Proof.
  intros HR.
  pose proof (preserves_write R fuel) as Hw.
  pose proof (preserves_read_body R) as Hr.
  pose proof (preserves_read_until_body R) as Hu.
  destruct HR as [-> | ->]; destruct op;
    unfold run_op, fmap, read, read_until, reset_input_buffer,
      serial_reset_input_buffer, get_serial;
    frame.
Qed.

Lemma close_Some w r :
  my_serial (self w) = Some r ->
  close w = (log (EvClose r) (set_port r (drv_close (ports w r)) w), Ok tt).
Proof.
  intros Hr. unfold close, bind, get_self, serial_close, serial_call.
  rewrite Hr. simpl. now rewrite Hr.
Qed.

Lemma close_None w : my_serial (self w) = None -> close w = (w, Ok tt).
Proof.
  intros Hr. unfold close, bind, get_self. now rewrite Hr.
Qed.

(** C10: no operation assigns an attribute of the adapter, [my_serial]
    included: after [close()] the attribute still refers to the same port
    object, now closed by the driver, and [get_serial()] hands back that same
    reference. *)
Theorem operations_never_assign_attributes :
  forall op fuel w,
    self (fst (run_op op fuel w)) = self w
    /\ snd (get_serial (fst (close w))) = Ok (my_serial (self w))
    /\ match my_serial (self w) with
       | Some r => ports (fst (close w)) r = drv_close (ports w r)
                   /\ trace (fst (close w)) = trace w ++ [EvClose r]
       | None => fst (close w) = w
       end.
Proof.
  intros op fuel w. repeat split.
  - apply (preserves_run_op same_self op fuel). now left.
  - unfold get_serial, bind, get_self, ret. simpl.
    now rewrite (same_self_close w).
  - destruct (my_serial (self w)) as [r|] eqn:Hr.
    + rewrite (close_Some w r Hr). simpl. unfold upd.
      now rewrite Nat.eqb_refl.
    + now rewrite (close_None w Hr).
Qed.

(** ** The first driver call of an operation *)

Lemma begins_serial_call {A : Type} (f : P -> P * result A) ev w r :
  my_serial (self w) = Some r ->
  exists res, begins (ev r res) (serial_call f ev) w.
Proof.
  intros Hr. unfold begins, serial_call. rewrite Hr.
  destruct (f (ports w r)) as [p' res]. exists res, []. reflexivity.
Qed.

Lemma begins_bind {A B : Type} ev (m : M A) (k : A -> M B) w :
  begins ev m w -> (forall a, preserves trace_grows (k a)) ->
  begins ev (bind m k) w.
Proof.
  intros [evs Hm] Hk. unfold begins, bind.
  destruct (m w) as [w1 [a|e|]]; simpl in *; try (now exists evs).
  destruct (Hk a w1) as [evs' H]. exists (evs ++ evs').
  now rewrite H, Hm, <- app_assoc.
Qed.

Lemma begins_try_except {A : Type} ev (m : M A) (h : exn -> M A) w :
  begins ev m w -> (forall e, preserves trace_grows (h e)) ->
  begins ev (try_except m h) w.
Proof.
  intros [evs Hm] Hh. unfold begins, try_except.
  destruct (m w) as [w1 [a|e|]]; simpl in *; try (now exists evs).
  destruct (is_SerialException e); simpl; [|now exists evs].
  destruct (Hh e w1) as [evs' H]. exists (evs ++ evs').
  now rewrite H, Hm, <- app_assoc.
Qed.

Lemma begins_while_true {A : Type} ev (body : M (option A)) fuel w :
  begins ev body w -> preserves trace_grows body ->
  begins ev (while_true (S fuel) body) w.
Proof.
  intros [evs Hb] Hg. unfold begins. cbn [while_true].
  destruct (body w) as [w1 [[a|]|e|]]; simpl in *; try (now exists evs).
  destruct (preserves_while_true trace_grows trace_grows_refl
              trace_grows_trans body fuel Hg w1) as [evs' H].
  exists (evs ++ evs'). now rewrite H, Hb, <- app_assoc.
Qed.

Lemma first_call_made op fuel w r :
  my_serial (self w) = Some r -> op <> OpGetSerial -> (0 < fuel)%nat ->
  exists ev, first_call op r ev /\ begins ev (run_op op fuel) w.
Proof.
  intros Hr Hop Hfuel.
  destruct op as [data|size|expected size timeout| | |]; [| | | | |easy].
  2, 3: destruct fuel as [|fuel]; [lia|].
  - destruct (begins_serial_call (drv_write (bytes data))
                (fun r res => EvWrite r (bytes data) res) w r Hr) as [res Hb].
    exists (EvWrite r (bytes data) res). split; [now exists res|].
    unfold run_op, fmap, write.
    repeat first [ exact Hb | apply begins_bind | apply begins_try_except ];
      frame.
  - destruct (begins_serial_call drv_in_waiting EvInWaiting w r Hr)
      as [res Hb].
    exists (EvInWaiting r res). split; [now exists res|].
    unfold run_op, fmap, read. apply begins_bind; [|frame].
    apply begins_while_true;
      [|apply preserves_read_body; now right].
    unfold read_body.
    repeat first [ exact Hb | apply begins_bind | apply begins_try_except ];
      unfold close_and_reraise, serial_read; frame.
  - destruct (begins_serial_call drv_in_waiting EvInWaiting w r Hr)
      as [res Hb].
    exists (EvInWaiting r res). split; [now exists res|].
    unfold run_op, fmap, read_until. apply begins_bind; [|frame].
    unfold begins, bind, time_time.
    apply begins_while_true;
      [|apply preserves_read_until_body; now right].
    unfold read_until_body.
    repeat first [ exact Hb | apply begins_bind | apply begins_try_except ];
      unfold close_and_reraise, serial_read_until, deadline_passed; frame.
  - destruct (begins_serial_call drv_reset_input_buffer EvResetInputBuffer
                w r Hr) as [res Hb].
    exists (EvResetInputBuffer r res). split; [now exists res|].
    unfold run_op, fmap, reset_input_buffer. apply begins_bind; [exact Hb|].
    frame.
  - exists (EvClose r). split; [reflexivity|].
    unfold run_op, fmap. apply begins_bind; [|frame].
    unfold begins. rewrite (close_Some w r Hr). now exists [].
Qed.

(** ** A fault ends in the handler: close, then raise *)

Lemma close_ok w : snd (close w) = Ok tt.
Proof.
  destruct (my_serial (self w)) as [r|] eqn:Hr.
  - now rewrite (close_Some w r Hr).
  - now rewrite (close_None w Hr).
Qed.

Lemma close_times_ok n : forall w, snd (close_times n w) = Ok tt.
Proof.
  induction n as [|n IH]; intros w; [reflexivity|].
  cbn [close_times]. unfold bind. pose proof (close_ok w) as Hc.
  destruct (close w) as [w1 res]. simpl in Hc. subst res. apply IH.
Qed.

Lemma write_fault fuel data w w' errno :
  write fuel data w = (w', Raise (SerialException errno)) ->
  exists r evs p,
    my_serial (self w) = Some r
    /\ trace w' = trace w ++ evs ++ [EvClose r]
    /\ ports w' r = drv_close p
    /\ sessions w' = sessions w
    /\ loop w' = loop w.
Proof.
  unfold write, try_except, bind, serial_write, serial_call, close,
    serial_close, serial_call, get_self, bind, raise, ret, lift_result.
  destruct (my_serial (self w)) as [r|] eqn:Hr; [|discriminate].
  destruct (drv_write (bytes data) (ports w r)) as [p1 [n|e|]]; simpl.
  - destruct (negb (Z.of_N n =? 0)); [|discriminate]. simpl.
    destruct fuel as [|fuel]; discriminate.
  - destruct (is_SerialException e) eqn:He; simpl;
      [|intros H; injection H as _ ->; discriminate He].
    repeat (rewrite Hr; simpl). intros H. injection H as <- _.
    exists r, [EvWrite r (bytes data) (Raise e)], p1.
    simpl. unfold upd. rewrite !Nat.eqb_refl.
    repeat split; try assumption; now rewrite <- ?app_assoc.
  - discriminate.
Qed.

Lemma read_body_fault size w w' errno :
  read_body size w = (w', Raise (SerialException errno)) ->
  exists r evs p,
    my_serial (self w) = Some r
    /\ trace w' = trace w ++ evs ++ [EvClose r]
    /\ ports w' r = drv_close p.
Proof.
  unfold read_body, try_except, bind, serial_in_waiting,
    serial_read, serial_call, close_and_reraise, close, serial_close,
    serial_call, get_self, bind, raise, ret, lift_result, sleep.
  destruct (my_serial (self w)) as [r|] eqn:Hr; [|discriminate].
  destruct (drv_in_waiting (ports w r)) as [p1 [n|e|]]; simpl.
  - destruct (negb (truthy n)); simpl; [discriminate|]. rewrite Hr. simpl.
    destruct (drv_read size _) as [p2 [data|e|]]; simpl.
    + destruct (N.eqb size 1); [|discriminate].
      destruct data as [|b [|b' data]]; simpl; discriminate.
    + destruct (is_SerialException e) eqn:He; simpl;
      [|intros H; injection H as _ ->; discriminate He].
      repeat (rewrite Hr; simpl). intros H. injection H as <- _.
      exists r, [EvInWaiting r (Ok n); EvRead r size (Raise e)],
        p2.
      simpl. unfold upd. rewrite !Nat.eqb_refl.
      repeat split; try assumption; now rewrite <- ?app_assoc.
    + discriminate.
  - destruct (is_SerialException e) eqn:He; simpl;
      [|intros H; injection H as _ ->; discriminate He].
    repeat (rewrite Hr; simpl). intros H. injection H as <- _.
    exists r, [EvInWaiting r (Raise e)], p1.
    simpl. unfold upd. rewrite !Nat.eqb_refl.
    repeat split; try assumption; now rewrite <- ?app_assoc.
  - discriminate.
Qed.

Lemma read_until_body_fault expected size timeout st w w' errno :
  read_until_body expected size timeout st w
  = (w', Raise (SerialException errno)) ->
  exists r evs p,
    my_serial (self w) = Some r
    /\ trace w' = trace w ++ evs ++ [EvClose r]
    /\ ports w' r = drv_close p.
Proof.
  intros H. destruct (poll_empty w) eqn:Hp.
  { rewrite (read_until_body_quiet expected size timeout st w Hp) in H.
    destruct (expired timeout st w); discriminate. }
  revert Hp H.
  unfold poll_empty, read_until_body, try_except, bind, serial_in_waiting,
    serial_read_until, serial_call, close_and_reraise, close, serial_close,
    serial_call, get_self, bind, raise, ret, lift_result.
  destruct (my_serial (self w)) as [r|] eqn:Hr; [|discriminate].
  destruct (drv_in_waiting (ports w r)) as [p1 [n|e|]]; simpl.
  - intros Hn. rewrite Hn. simpl. rewrite Hr. simpl.
    destruct (drv_read_until expected size _) as [p2 [data|e|]]; simpl.
    + discriminate.
    + destruct (is_SerialException e) eqn:He; simpl;
      [|intros H; injection H as _ ->; discriminate He].
      repeat (rewrite Hr; simpl). intros H. injection H as <- _.
      exists r, [EvInWaiting r (Ok n);
                 EvReadUntil r expected size (Raise e)], p2.
      simpl. unfold upd. rewrite !Nat.eqb_refl.
      repeat split; try assumption; now rewrite <- ?app_assoc.
    + discriminate.
  - intros _.
    destruct (is_SerialException e) eqn:He; simpl;
      [|intros H; injection H as _ ->; discriminate He].
    repeat (rewrite Hr; simpl). intros H. injection H as <- _.
    exists r, [EvInWaiting r (Raise e)], p1.
    simpl. unfold upd. rewrite !Nat.eqb_refl.
    repeat split; try assumption; now rewrite <- ?app_assoc.
  - discriminate.
Qed.

Lemma while_true_one_raise {A : Type} (body : M (option A)) w w' e :
  while_true 1 body w = (w', Raise e) -> body w = (w', Raise e).
Proof.
  cbn [while_true]. destruct (body w) as [w1 [[a|]|e'|]]; congruence.
Qed.

Lemma read_fault fuel size w w' errno :
  read fuel size w = (w', Raise (SerialException errno)) ->
  exists r evs p,
    my_serial (self w) = Some r
    /\ trace w' = trace w ++ evs ++ [EvClose r]
    /\ ports w' r = drv_close p.
Proof.
  intros H.
  destruct (read_split size fuel _ w eq_refl)
    as [[_ Hr]|(k & Hk & Hq & Hb & Hr)]; [congruence|].
  rewrite Hr in H. apply while_true_one_raise in H.
  apply read_body_fault in H as (r & evs & p & Hs & Ht & Hp).
  rewrite idles_self in Hs.
  exists r, (idle_events r (sleep_tune (self w) * 2) k ++ evs), p.
  repeat split; try assumption.
  rewrite Ht, (idles_trace r k _ w Hs Hq). now rewrite <- !app_assoc.
Qed.

Lemma read_until_fault fuel expected size timeout w w' errno :
  read_until fuel expected size timeout w
  = (w', Raise (SerialException errno)) ->
  exists r evs p,
    my_serial (self w) = Some r
    /\ trace w' = trace w ++ evs ++ [EvClose r]
    /\ ports w' r = drv_close p.
Proof.
  rewrite read_until_unfold. intros H.
  destruct (read_until_split (encode (str expected)) size timeout (now w)
              fuel _ w eq_refl)
    as [[_ Hr]|[(k & _ & _ & _ & _ & Hr)|(k & Hk & Hc & Hb & Hr)]];
    [congruence|congruence|].
  rewrite Hr in H. apply while_true_one_raise in H.
  apply read_until_body_fault in H as (r & evs & p & Hs & Ht & Hp).
  rewrite idles_self in Hs. pose proof (calm_quiet _ _ _ _ _ Hc) as Hq.
  exists r, (idle_events r (sleep_tune (self w)) k ++ evs), p.
  repeat split; try assumption.
  rewrite Ht, (idles_trace r k _ w Hs Hq). now rewrite <- !app_assoc.
Qed.

Lemma fmap_raise {A B : Type} (f : A -> B) (m : M A) w w' e :
  fmap f m w = (w', Raise e) -> m w = (w', Raise e).
Proof.
  unfold fmap, bind, ret. destruct (m w) as [w1 [a|e'|]]; congruence.
Qed.


(** ** What [write] hands back *)

(** The count the driver accepted comes back when it is not 0; on 0 the
    test [if result:] fails and the coroutine falls off its end. *)
Lemma write_returns_count fuel data w r p n :
  my_serial (self w) = Some r ->
  drv_write (bytes data) (ports w r) = (p, Ok n) ->
  snd (write (S fuel) data w)
  = if N.eqb n 0 then Ok VNone else Ok (VInt (Z.of_N n)).
Proof.
  intros Hr Hw.
  unfold write, try_except, bind, serial_write, serial_call, ret, lift_result.
  rewrite Hr, Hw. simpl.
  destruct (N.eqb_spec n 0) as [->|Hn]; [reflexivity|].
  destruct (Z.eqb_spec (Z.of_N n) 0) as [Hz|Hz]; [lia|]. reflexivity.
Qed.

(** * Further properties *)

(** ** [write] is one driver call *)

Lemma write_eq_direct fuel data w :
  write (S fuel) data w = write_direct data w.
Proof.
  unfold write, write_direct, try_except, bind at 1 2.
  destruct (serial_write (bytes data) w) as [w1 [n|e|]]; simpl.
  - unfold ret at 1. simpl.
    destruct (N.eqb_spec n 0) as [->|Hn]; [reflexivity|].
    destruct (Z.eqb_spec (Z.of_N n) 0) as [Hz|Hz]; [lia|]. reflexivity.
  - destruct (is_SerialException e); [|reflexivity].
    unfold bind. pose proof (close_ok w1) as Hc.
    destruct (close w1) as [w2 res]. simpl in Hc. subst res. reflexivity.
  - reflexivity.
Qed.

(** With no iteration allowed the loop over the future cannot start; every
    other outcome is already that of the direct program. *)
Lemma write_zero data w :
  write 0 data w
  = match write_direct data w with
    | (w1, Ok (VInt _)) => (w1, Pending)
    | r => r
    end.
Proof.
  unfold write, write_direct, try_except, bind at 1 2.
  destruct (serial_write (bytes data) w) as [w1 [n|e|]]; simpl.
  - unfold ret at 1. simpl.
    destruct (N.eqb_spec n 0) as [->|Hn]; [reflexivity|].
    destruct (Z.eqb_spec (Z.of_N n) 0) as [Hz|Hz]; [lia|]. reflexivity.
  - destruct (is_SerialException e); [|reflexivity].
    unfold bind. pose proof (close_ok w1) as Hc.
    destruct (close w1) as [w2 res]. simpl in Hc. subst res. reflexivity.
  - reflexivity.
Qed.

Lemma close_frame w :
  clock (fst (close w)) = clock w
  /\ sessions (fst (close w)) = sessions w
  /\ loop (fst (close w)) = loop w.
Proof.
  destruct (my_serial (self w)) as [r|] eqn:Hr.
  - now rewrite (close_Some w r Hr).
  - now rewrite (close_None w Hr).
Qed.

Lemma write_direct_frame data w :
  clock (fst (write_direct data w)) = clock w
  /\ same_env w (fst (write_direct data w)).
Proof.
  unfold write_direct, serial_write, same_env.
  pose proof (serial_call_frame (drv_write (bytes data))
                (fun r res => EvWrite r (bytes data) res) w)
    as (_ & Hc & Hs & Hl).
  destruct (serial_call _ _ w) as [w1 [n|e|]]; simpl in *;
    try (now repeat split).
  destruct (is_SerialException e); simpl; [|now repeat split].
  destruct (close_frame w1) as (Hc' & Hs' & Hl').
  repeat split; congruence.
Qed.

(** X1: for every fuel of at least one iteration [write] is the direct
    program: one driver write, then the count when it is not 0, None when it
    is 0, the driver's close and the same exception on a SerialException, and
    any other exception as it came; it never suspends, so the clock stands
    still. *)
Theorem write_is_one_driver_call :
  forall fuel data w,
    write (S fuel) data w = write_direct data w
    /\ clock (fst (write (S fuel) data w)) = clock w
    /\ exists evs, trace (fst (write (S fuel) data w)) = trace w ++ evs
                   /\ count_sleeps evs = 0%nat.
Proof.
  intros fuel data w. rewrite write_eq_direct.
  split; [reflexivity|]. split; [apply write_direct_frame|].
  unfold write_direct, serial_write, serial_call.
  destruct (my_serial (self w)) as [r|] eqn:Hr.
  - destruct (drv_write (bytes data) (ports w r)) as [p1 [n|e|]]; simpl;
      try (eexists [_]; split; reflexivity).
    destruct (is_SerialException e); simpl;
      [|eexists [_]; split; reflexivity].
    rewrite (close_Some _ r) by exact Hr. simpl.
    eexists [_; _]. rewrite <- app_assoc. split; reflexivity.
  - exists []. rewrite app_nil_r. split; reflexivity.
Qed.

(** ** The session and the loop are never touched *)

Lemma same_env_refl w : same_env w w.
Proof. now split. Qed.

Lemma same_env_trans w1 w2 w3 :
  same_env w1 w2 -> same_env w2 w3 -> same_env w1 w3.
Proof. unfold same_env. intros [H1 H2] [H3 H4]. split; congruence. Qed.

Lemma same_env_serial_call {A : Type} (f : P -> P * result A) ev :
  preserves same_env (serial_call f ev).
Proof. intros w. split; apply serial_call_frame. Qed.

Lemma same_env_sleep d : preserves (P:=P) same_env (sleep d).
Proof. now intros w. Qed.

Lemma same_env_close : preserves (P:=P) same_env close.
Proof. intros w. split; apply close_frame. Qed.

#[local] Hint Resolve same_env_refl same_env_trans same_env_serial_call
  same_env_sleep same_env_close : frame.

Lemma same_env_write fuel data : preserves (P:=P) same_env (write fuel data).
Proof.
  intros w. destruct fuel as [|fuel].
  - rewrite write_zero. pose proof (write_direct_frame data w) as [_ H].
    destruct (write_direct data w) as [w1 [[|n|l]|e|]]; exact H.
  - rewrite write_eq_direct. apply write_direct_frame.
Qed.

(** X2: no operation cancels the task of the session, stops the loop or
    closes it, whatever [close_loop_on_error] and [telemetrix_aio_instance]
    hold and whatever the driver does: the session objects and the event loop
    are after it what they were before. *)
Theorem operations_never_touch_session_or_loop :
  forall op fuel w,
    sessions (fst (run_op op fuel w)) = sessions w
    /\ loop (fst (run_op op fuel w)) = loop w.
Proof.
  intros op fuel w.
  assert (H : preserves same_env (run_op op fuel)); [|apply H].
  pose proof (same_env_write fuel) as Hw.
  destruct op;
    unfold run_op, fmap, read, read_body, read_until, read_until_body,
      deadline_passed, close_and_reraise, reset_input_buffer,
      serial_reset_input_buffer, serial_in_waiting, serial_read,
      serial_read_until, get_serial;
    frame.
Qed.

(** ** [close()] again and again *)

Lemma count_closes_app evs1 evs2 :
  count_closes (evs1 ++ evs2) = (count_closes evs1 + count_closes evs2)%nat.
Proof. unfold count_closes. now rewrite filter_app, length_app. Qed.

Lemma close_times_Some n : forall w r,
  my_serial (self w) = Some r ->
  snd (close_times n w) = Ok tt
  /\ trace (fst (close_times n w)) = trace w ++ repeat (EvClose r) n
  /\ ports (fst (close_times n w)) r = Nat.iter n drv_close (ports w r)
  /\ (forall r', r' <> r -> ports (fst (close_times n w)) r' = ports w r')
  /\ clock (fst (close_times n w)) = clock w.
Proof.
  induction n as [|n IH]; intros w r Hr.
  - simpl. rewrite app_nil_r. now repeat split.
  - cbn [close_times]. unfold bind. rewrite (close_Some w r Hr).
    destruct (IH (log (EvClose r) (set_port r (drv_close (ports w r)) w)) r Hr)
      as (H1 & H2 & H3 & H4 & H5).
    repeat split.
    + exact H1.
    + rewrite H2. simpl. now rewrite <- app_assoc.
    + rewrite H3. simpl. unfold upd. rewrite Nat.eqb_refl.
      now rewrite <- Nat.iter_succ_r.
    + intros r' Hne. rewrite (H4 r' Hne). simpl. unfold upd.
      apply Nat.eqb_neq in Hne. now rewrite Hne.
    + exact H5.
Qed.

Lemma close_times_None n : forall w,
  my_serial (self w) = None -> close_times n w = (w, Ok tt).
Proof.
  induction n as [|n IH]; intros w Hr; [reflexivity|].
  cbn [close_times]. unfold bind. rewrite (close_None w Hr). now apply IH.
Qed.

(** X3: [close()] does not look at the state of the port: called [n] times
    in a row it calls the driver's close [n] times on the same port, returns
    every time, and changes nothing else; with no handle it does nothing. *)
Theorem repeated_close_calls_driver_each_time :
  forall n w,
    snd (close_times n w) = Ok tt
    /\ match my_serial (self w) with
       | Some r =>
           trace (fst (close_times n w)) = trace w ++ repeat (EvClose r) n
           /\ count_closes (repeat (EvClose r) n) = n
           /\ ports (fst (close_times n w)) r
              = Nat.iter n drv_close (ports w r)
           /\ (forall r',
                 ports (fst (close_times n w)) r'
                 = if Nat.eqb r' r then Nat.iter n drv_close (ports w r)
                   else ports w r')
           /\ clock (fst (close_times n w)) = clock w
       | None => fst (close_times n w) = w
       end.
Proof.
  intros n w. split; [apply close_times_ok|].
  destruct (my_serial (self w)) as [r|] eqn:Hr.
  - destruct (close_times_Some n w r Hr) as (_ & H2 & H3 & H4 & H5).
    repeat split; try assumption.
    + clear. induction n as [|n IH]; [reflexivity|].
      simpl. unfold count_closes in *. simpl. now rewrite IH.
    + intros r'. destruct (Nat.eqb_spec r' r) as [->|Hne];
        [assumption|now apply H4].
  - now rewrite (close_times_None n w Hr).
Qed.

(** ** When the driver's close is called *)

Lemma count_closes_idle_events r d k : count_closes (idle_events r d k) = O.
Proof. induction k as [|k IH]; [reflexivity|exact IH]. Qed.

(** Closes a goal [exists evs, trace w' = trace w ++ evs /\ count = n] once
    the final world is explicit. *)
Ltac count_trace :=
  simpl; rewrite <- ?app_assoc; simpl;
  first [ eexists; split; [reflexivity|reflexivity]
        | exists []; rewrite app_nil_r; split; reflexivity ].

Lemma closes_on_fault_read_body size :
  closes_on_fault (P:=P) (read_body size).
Proof.
  intros w.
  unfold read_body, try_except, bind, serial_in_waiting,
    serial_read, serial_call, close_and_reraise, close, serial_close,
    serial_call, get_self, bind, raise, ret, lift_result, sleep.
  destruct (my_serial (self w)) as [r|] eqn:Hr; [|count_trace].
  destruct (drv_in_waiting (ports w r)) as [p1 [n|e|]]; simpl.
  - destruct (negb (truthy n)); simpl; [count_trace|]. rewrite Hr. simpl.
    destruct (drv_read size _) as [p2 [data|e|]]; simpl.
    + destruct (N.eqb size 1); [|count_trace].
      destruct data as [|b [|b' data]]; count_trace.
    + destruct (is_SerialException e) eqn:He; simpl; [|rewrite He; count_trace].
      repeat (rewrite Hr; simpl). rewrite He. count_trace.
    + count_trace.
  - destruct (is_SerialException e) eqn:He; simpl; [|rewrite He; count_trace].
    repeat (rewrite Hr; simpl). rewrite He. count_trace.
  - count_trace.
Qed.

Lemma closes_on_fault_read_until_body expected size timeout st :
  closes_on_fault (P:=P) (read_until_body expected size timeout st).
Proof.
  intros w.
  unfold read_until_body, try_except, bind, serial_in_waiting,
    serial_read_until, serial_call, close_and_reraise, close, serial_close,
    serial_call, get_self, bind, raise, ret, lift_result, sleep.
  destruct (my_serial (self w)) as [r|] eqn:Hr; [|count_trace].
  destruct (drv_in_waiting (ports w r)) as [p1 [n|e|]]; simpl.
  - destruct (negb (truthy n)); simpl.
    + match goal with
      | |- context [deadline_passed timeout st ?w1] =>
          destruct (deadline_passed_pure timeout st w1) as [b Hb];
          rewrite Hb
      end. simpl.
      destruct b; count_trace.
    + rewrite Hr. simpl.
      destruct (drv_read_until expected size _) as [p2 [data|e|]]; simpl.
      * count_trace.
      * destruct (is_SerialException e) eqn:He; simpl;
          [|rewrite He; count_trace].
        repeat (rewrite Hr; simpl). rewrite He. count_trace.
      * count_trace.
  - destruct (is_SerialException e) eqn:He; simpl; [|rewrite He; count_trace].
    repeat (rewrite Hr; simpl). rewrite He. count_trace.
  - count_trace.
Qed.

Lemma closes_on_fault_while_true {A : Type} (body : M (option A)) fuel :
  closes_on_fault body -> closes_on_fault (while_true fuel body).
Proof.
  intros Hb. induction fuel as [|fuel IH]; intros w.
  - exists []. simpl. now rewrite app_nil_r.
  - cbn [while_true]. destruct (Hb w) as (evs & Ht & Hc).
    destruct (body w) as [w1 [[a|]|e|]]; simpl in *;
      try (now exists evs).
    destruct (IH w1) as (evs' & Ht' & Hc').
    exists (evs ++ evs'). split.
    + now rewrite Ht', Ht, app_assoc.
    + now rewrite count_closes_app, Hc, Hc'.
Qed.

Lemma closes_on_fault_write_direct data :
  closes_on_fault (P:=P) (write_direct data).
Proof.
  intros w. unfold write_direct, serial_write, serial_call.
  destruct (my_serial (self w)) as [r|] eqn:Hr; [|count_trace].
  destruct (drv_write (bytes data) (ports w r)) as [p1 [n|e|]]; simpl.
  - destruct (N.eqb n 0); count_trace.
  - destruct (is_SerialException e) eqn:He; simpl; [|rewrite He; count_trace].
    rewrite (close_Some _ r) by exact Hr. rewrite He. count_trace.
  - count_trace.
Qed.

Lemma closes_on_fault_write fuel data :
  closes_on_fault (P:=P) (write fuel data).
Proof.
  intros w. destruct (closes_on_fault_write_direct data w) as (evs & Ht & Hc).
  destruct fuel as [|fuel].
  - rewrite write_zero.
    destruct (write_direct data w) as [w1 [[|n|l]|e|]]; now exists evs.
  - rewrite write_eq_direct. now exists evs.
Qed.

Lemma closes_on_fault_fmap {A B : Type} (f : A -> B) (m : M A) :
  closes_on_fault m -> closes_on_fault (fmap f m).
Proof.
  intros Hm w. destruct (Hm w) as (evs & Ht & Hc).
  unfold fmap, bind, ret. destruct (m w) as [w1 [a|e|]]; now exists evs.
Qed.

(** X4: the driver's close is called exactly once when [write], [read] or
    [read_until] raises a SerialException, exactly once by [close()] holding
    a handle, and in no other case: not when another exception is raised,
    not when an operation returns or is still polling, and never by
    [reset_input_buffer], whatever it raises. *)
Theorem close_called_only_on_serial_fault :
  forall op fuel w,
    exists evs,
      trace (fst (run_op op fuel w)) = trace w ++ evs
      /\ count_closes evs
         = closes_due op (truthy_ref (my_serial (self w)))
                      (snd (run_op op fuel w)).
Proof.
  intros op fuel w.
  assert (Hfault : forall m : M value,
             closes_on_fault m ->
             exists evs,
               trace (fst (fmap AValue m w)) = trace w ++ evs
               /\ count_closes evs
                  = match snd (fmap AValue m w) with
                    | Raise e => if is_SerialException e then 1%nat
                                 else 0%nat
                    | _ => 0%nat
                    end).
  { intros m Hm. exact (closes_on_fault_fmap AValue m Hm w). }
  destruct op as [data|size|expected size timeout| | |];
    cbn [run_op closes_due].
  - apply Hfault, closes_on_fault_write.
  - apply Hfault. unfold read.
    apply closes_on_fault_while_true, closes_on_fault_read_body.
  - apply Hfault. intros w0. rewrite read_until_unfold.
    apply closes_on_fault_while_true, closes_on_fault_read_until_body.
  - unfold fmap, bind, ret, reset_input_buffer, serial_reset_input_buffer,
      serial_call.
    destruct (my_serial (self w)) as [r|]; [|count_trace].
    destruct (drv_reset_input_buffer (ports w r)) as [p1 [[]|e|]];
      count_trace.
  - unfold fmap, bind, ret.
    destruct (my_serial (self w)) as [r|] eqn:Hr.
    + rewrite (close_Some w r Hr). count_trace.
    + rewrite (close_None w Hr). count_trace.
  - unfold fmap, bind, ret, get_serial, get_self. count_trace.
Qed.

(** ** What the operations hand back *)

Lemma fmap_ok {A B : Type} (f : A -> B) (m : M A) w w' b :
  fmap f m w = (w', Ok b) -> exists a, m w = (w', Ok a) /\ b = f a.
Proof.
  unfold fmap, bind, ret. destruct (m w) as [w1 [a|e|]]; try discriminate.
  intros H. injection H as <- <-. now exists a.
Qed.

Lemma write_direct_shape data w w' v :
  write_direct data w = (w', Ok v) ->
  v = VNone \/ exists n, 0 < n /\ v = VInt n.
Proof.
  unfold write_direct.
  destruct (serial_write (bytes data) w) as [w1 [n|e|]]; try discriminate.
  - destruct (N.eqb_spec n 0) as [->|Hn]; intros H; injection H as _ <-.
    + now left.
    + right. exists (Z.of_N n). split; [lia|reflexivity].
  - destruct (is_SerialException e); discriminate.
Qed.

Lemma expired_truthy timeout st w :
  expired timeout st w = true -> truthy_timeout timeout = true.
Proof.
  unfold expired. destruct timeout as [t|]; [|discriminate].
  intros H. now apply andb_true_iff in H as [H _].
Qed.

(** X7: what comes back from an operation that returns: from [write] None
    or a count above 0, never 0; from [read(1)] an int from 0 to 255 and
    from [read] of another size a list; from [read_until] a list, or None
    and then only under a timeout other than 0 and None; from
    [reset_input_buffer] and [close] None; from [get_serial] the handle the
    adapter holds. *)
Theorem operations_hand_back_well_shaped_values :
  forall op fuel w w' a,
    run_op op fuel w = (w', Ok a) -> well_shaped op w a.
Proof.
  intros op fuel w w' a H.
  destruct op as [data|size|expected size timeout| | |]; cbn [run_op] in H;
    apply fmap_ok in H as (v & H & ->); cbn [well_shaped].
  - assert (Hd : write_direct data w = (w', Ok v)).
    { destruct fuel as [|fuel]; [|now rewrite write_eq_direct in H].
      rewrite write_zero in H.
      destruct (write_direct data w) as [w1 [[|n|l]|e|]];
        first [exact H|discriminate]. }
    destruct (write_direct_shape data w w' v Hd) as [->|(n & Hn & ->)];
      [now left|right; now exists n].
  - destruct (read_split size fuel _ w eq_refl)
      as [[_ Hr]|(k & Hk & Hq & Hb & Hr)]; [congruence|].
    rewrite Hr in H. unfold read in H. cbn [while_true] in H.
    destruct (read_body size _) as [w1 [[v1|]|e|]] eqn:Hbody;
      try discriminate.
    injection H as -> ->.
    apply read_body_returns in Hbody
      as (r & n & p1 & data & p2 & _ & _ & _ & _ & _ & Hv).
    destruct Hv as [[-> (b & -> & ->)]|[Hne ->]].
    + simpl. exists (Z.of_N (Byte.to_N b)). split; [|reflexivity].
      pose proof (Byte.to_N_bounded b). lia.
    + apply N.eqb_neq in Hne. rewrite Hne. now exists data.
  - rewrite read_until_unfold in H.
    destruct (read_until_split (encode (str expected)) size timeout (now w)
                fuel _ w eq_refl)
      as [[_ Hr]|[(k & _ & _ & _ & He & Hr)|(k & _ & _ & Hp & Hr)]];
      rewrite Hr in H; clear Hr; [discriminate| |].
    + injection H as _ <-. left. split; [|reflexivity].
      now apply expired_truthy in He.
    + cbn [while_true] in H.
      destruct (read_until_body _ size timeout (now w) _)
        as [w1 [[v1|]|e|]] eqn:Hbody; try discriminate.
      injection H as -> ->.
      apply read_until_body_returns in Hbody
        as (r & n & p1 & data & p2 & _ & _ & _ & _ & _ & ->); [|exact Hp].
      right. now exists data.
  - now destruct v.
  - now destruct v.
  - unfold get_serial, bind, get_self, ret in H. now injection H as _ <-.
Qed.

(** ** [read_until] under a deadline comes back *)

Lemma calm_le k : forall j d timeout st w,
  (j <= k)%nat -> calm k d timeout st w = true -> calm j d timeout st w = true.
Proof.
  induction k as [|k IH]; intros j d timeout st w Hj Hc.
  - now replace j with O by lia.
  - destruct j as [|j]; [reflexivity|].
    cbn [calm] in *. apply andb_true_iff in Hc as [Hp Hc].
    rewrite Hp. simpl. apply IH; [lia|assumption].
Qed.

Lemma polls_in_time_late t d :
  0 < d -> t < Z.of_nat (polls_in_time t d) * Z.max 0 d.
Proof.
  intros Hd. unfold polls_in_time.
  rewrite Nat2Z.inj_succ, Z2Nat.id
    by (apply Z.div_pos; lia).
  rewrite (Z.max_r 0 d) by lia.
  pose proof (Z.mul_succ_div_gt (Z.max 0 t) d Hd). lia.
Qed.

Lemma read_until_body_responsive expected size timeout st w :
  responsive P -> snd (read_until_body expected size timeout st w) <> Pending.
Proof.
  intros [Hpoll Hread].
  unfold read_until_body, try_except, bind, serial_in_waiting,
    serial_read_until, serial_call, close_and_reraise, close, serial_close,
    serial_call, get_self, bind, raise, ret, lift_result, sleep.
  destruct (my_serial (self w)) as [r|] eqn:Hr; [|discriminate].
  specialize (Hpoll (ports w r)).
  destruct (drv_in_waiting (ports w r)) as [p1 [n|e|]]; simpl in *.
  - destruct (negb (truthy n)); simpl.
    + match goal with
      | |- context [deadline_passed timeout st ?w1] =>
          destruct (deadline_passed_pure timeout st w1) as [b Hb];
          rewrite Hb
      end. simpl.
      destruct b; discriminate.
    + rewrite Hr. simpl.
      match goal with
      | |- context [drv_read_until expected size ?p] =>
          specialize (Hread expected size p);
          destruct (drv_read_until expected size p) as [p2 [data|e|]]
      end; simpl in *.
      * discriminate.
      * destruct (is_SerialException e); simpl; [|discriminate].
        repeat (rewrite Hr; simpl). discriminate.
      * now elim Hread.
  - destruct (is_SerialException e); simpl; [|discriminate].
    repeat (rewrite Hr; simpl). discriminate.
  - now elim Hpoll.
Qed.

Lemma while_true_one_pending {A : Type} (body : M (option A)) w :
  snd (body w) <> Ok None -> snd (body w) <> Pending ->
  snd (while_true 1 body w) <> Pending.
Proof.
  cbn [while_true]. destruct (body w) as [w1 [[a|]|e|]]; simpl; congruence.
Qed.

Lemma punctual_expired w t k :
  punctual w -> t <> 0 ->
  t < Z.of_nat k * Z.max 0 (sleep_tune (self w)) ->
  expired (Some t) (now w) (idles k (sleep_tune (self w)) w) = true.
Proof.
  intros Hpun Ht Hk. unfold expired, truthy_timeout.
  apply Z.eqb_neq in Ht. rewrite Ht. simpl.
  apply Z.gtb_lt. specialize (Hpun k). lia.
Qed.

Lemma slept_app evs1 evs2 : slept (evs1 ++ evs2) = slept evs1 + slept evs2.
Proof.
  induction evs1 as [|ev evs1 IH]; [reflexivity|].
  simpl. destruct ev; rewrite IH; lia.
Qed.

Lemma poll_slept w :
  wall (fst (serial_in_waiting w)) = wall w
  /\ slept (trace (fst (serial_in_waiting w))) = slept (trace w).
Proof.
  unfold serial_in_waiting, serial_call.
  destruct (my_serial (self w)) as [r|]; [|now split].
  destruct (drv_in_waiting (ports w r)) as [p' res]. simpl.
  split; [reflexivity|]. rewrite slept_app. simpl. lia.
Qed.

Lemma idle_slept d w :
  wall (idle d w) = wall w
  /\ slept (trace (idle d w)) = slept (trace w) + Z.max 0 d.
Proof.
  destruct (poll_slept w) as [Hw Hs]. unfold idle, sleep.
  cbn [fst trace wall]. rewrite slept_app, Hs. cbn [slept].
  split; [exact Hw|lia].
Qed.

Lemma idles_slept k : forall d w,
  wall (idles k d w) = wall w
  /\ slept (trace (idles k d w)) = slept (trace w) + Z.of_nat k * Z.max 0 d.
Proof.
  induction k as [|k IH]; intros d w.
  - cbn [idles]. split; [reflexivity|lia].
  - cbn [idles]. destruct (IH d (idle d w)) as [Hw Hs].
    destruct (idle_slept d w) as [Hw' Hs'].
    rewrite Hw, Hs, Hw', Hs'. split; [reflexivity|lia].
Qed.

(** A host whose wall clock is the suspensions asked for, added up, is
    punctual. *)
Lemma slept_wall_punctual w :
  (forall evs, wall w evs = slept evs) -> punctual w.
Proof.
  intros Hwall k. unfold now.
  destruct (poll_slept (idles k (sleep_tune (self w)) w)) as [Hw Hs].
  destruct (idles_slept k (sleep_tune (self w)) w) as [Hw' Hs'].
  rewrite Hw, Hw', !Hwall, Hs, Hs'. lia.
Qed.

(** X5: under a timeout other than 0 and with a positive [sleep_tune],
    on a driver whose calls come back and a host that does not wake the
    adapter before the time it asked for, [read_until] is never still
    polling once it has had [timeout / sleep_tune + 2] iterations: whatever
    the port does, it has returned or raised by then. *)
Theorem read_until_comes_back_within_bound :
  forall w expected size t fuel,
    responsive P ->
    punctual w ->
    t <> 0 ->
    0 < sleep_tune (self w) ->
    (polls_in_time t (sleep_tune (self w)) < fuel)%nat ->
    snd (read_until fuel expected size (Some t) w) <> Pending.
Proof.
  intros w expected size t fuel Hresp Hpun Ht Hd Hfuel.
  rewrite read_until_unfold.
  destruct (read_until_split (encode (str expected)) size (Some t) (now w)
              fuel _ w eq_refl)
    as [[Hc _]|[(k & _ & _ & _ & _ & Hr)|(k & _ & _ & Hp & Hr)]].
  - apply (calm_le fuel (S (polls_in_time t (sleep_tune (self w))))) in Hc;
      [|lia].
    rewrite calm_snoc in Hc. apply andb_true_iff in Hc as [_ Hc].
    apply andb_true_iff in Hc as [_ Hc].
    rewrite (punctual_expired w t _ Hpun Ht) in Hc; [discriminate|].
    now apply polls_in_time_late.
  - rewrite Hr. discriminate.
  - rewrite Hr. apply while_true_one_pending.
    + now apply read_until_body_busy.
    + now apply read_until_body_responsive.
Qed.

(** ** The delimiter [read_until] hands to the driver *)

Lemma bytes_eqb_refl l : bytes_eqb l l = true.
Proof.
  induction l as [|b l IH]; [reflexivity|]. simpl.
  rewrite IH, andb_true_r. now apply Byte.byte_dec_lb.
Qed.

Lemma delimiter_is_text_all :
  forallb delimiter_is_text (seq 0 256) = true.
Proof. vm_compute. reflexivity. Qed.

(** X8: the bytes a returning [read_until] hands back are those of a driver
    call whose delimiter is the decimal text of [expected] and whose size is
    the caller's; for every byte value from 0 to 255 that text is one to
    three ASCII digits and never the one byte of that value. *)
Theorem read_until_delimiter_is_decimal_text :
  forall fuel expected size timeout w w' data,
    read_until fuel expected size timeout w = (w', Ok (VList data)) ->
    0 <= expected <= 255 ->
    (exists r evs,
       trace w' = trace w ++ evs
                  ++ [EvReadUntil r (encode (str expected)) size (Ok data)])
    /\ forallb is_digit (encode (str expected)) = true
    /\ (1 <= List.length (encode (str expected)) <= 3)%nat
    /\ (forall b, Byte.to_N b = Z.to_N expected ->
                  encode (str expected) <> [b]).
Proof.
  intros fuel expected size timeout w w' data H Hrange.
  split.
  - rewrite read_until_unfold in H.
    destruct (read_until_split (encode (str expected)) size timeout (now w)
                fuel _ w eq_refl)
      as [[_ Hr]|[(k & _ & _ & _ & _ & Hr)|(k & _ & Hc & Hp & Hr)]];
      rewrite Hr in H; clear Hr; [discriminate|discriminate|].
    cbn [while_true] in H.
    destruct (read_until_body _ size timeout (now w) _)
      as [w1 [[v1|]|e|]] eqn:Hbody; try discriminate.
    injection H as -> ->.
    apply read_until_body_returns in Hbody
      as (r & n & p1 & data' & p2 & Hs & _ & _ & _ & -> & Hv); [|exact Hp].
    injection Hv as <-. rewrite idles_self in Hs.
    exists r, (idle_events r (sleep_tune (self w)) k ++ [EvInWaiting r (Ok n)]).
    simpl. rewrite (idles_trace r k _ w Hs (calm_quiet _ _ _ _ _ Hc)).
    now rewrite <- !app_assoc.
  - pose proof delimiter_is_text_all as Hall.
    rewrite forallb_forall in Hall.
    specialize (Hall (Z.to_nat expected)).
    rewrite in_seq in Hall. specialize (Hall ltac:(lia)).
    unfold delimiter_is_text in Hall.
    rewrite Z2Nat.id in Hall by lia.
    rewrite Z_nat_N in Hall.
    rewrite !andb_true_iff in Hall.
    destruct Hall as [[[Hdig Hlo] Hhi] Hne].
    apply Nat.leb_le in Hlo, Hhi.
    repeat split; try assumption.
    intros b Hb Heq.
    assert (Hof : Byte.of_N (Z.to_N expected) = Some b)
      by (rewrite <- Hb; apply Byte.of_to_N).
    rewrite Hof, Heq, bytes_eqb_refl in Hne. discriminate.
Qed.

(** ** A read that yields no byte *)

(** X9: when the poll reports data and the driver's [read(1)] then yields
    other than exactly one byte, [read(1)] raises TypeError from [ord]; the
    handler for SerialException does not take it, so the driver's close is
    not called. *)
Theorem read_one_raises_on_short_read :
  forall fuel w r p1 n p2 data,
    my_serial (self w) = Some r ->
    drv_in_waiting (ports w r) = (p1, Ok n) ->
    n <> 0%N ->
    drv_read 1 p1 = (p2, Ok data) ->
    List.length data <> 1%nat ->
    snd (read (S fuel) 1 w) = Raise TypeError
    /\ trace (fst (read (S fuel) 1 w))
       = trace w ++ [EvInWaiting r (Ok n); EvRead r 1 (Ok data)]
    /\ ports (fst (read (S fuel) 1 w)) r = p2.
Proof.
  intros fuel w r p1 n p2 data Hr Hw Hn Hd Hlen.
  assert (H : read (S fuel) 1 w
              = (log (EvRead r 1 (Ok data))
                   (set_port r p2
                      (log (EvInWaiting r (Ok n)) (set_port r p1 w))),
                 Raise TypeError)).
  { unfold read. cbn [while_true].
    unfold read_body, try_except, bind, serial_in_waiting, serial_read,
      serial_call, ret, lift_result.
    rewrite Hr, Hw. simpl.
    replace (negb (truthy n)) with false
      by (unfold truthy; rewrite negb_involutive; symmetry;
          now apply N.eqb_neq).
    simpl. rewrite Hr. simpl. unfold upd at 1. rewrite Nat.eqb_refl, Hd.
    simpl.
    destruct data as [|b [|b' data]]; simpl in *;
      [reflexivity|now elim Hlen|reflexivity]. }
  rewrite H. simpl. unfold upd. rewrite Nat.eqb_refl, <- app_assoc.
  now repeat split.
Qed.

End AdapterTheory.

(** ** The scripted port at work *)

Lemma silent_poll r w : silent r w -> poll_empty w = true.
Proof.
  intros (Hr & Ho & Hrx & _ & Hf).
  unfold poll_empty, serial_in_waiting, serial_call. rewrite Hr.
  simpl. unfold fake_in_waiting, fake_call. now rewrite Ho, Hf, Hrx.
Qed.

Lemma silent_idle r d w : silent r w -> silent r (idle d w).
Proof.
  intros (Hr & Ho & Hrx & Hi & Hf).
  unfold silent, idle, serial_in_waiting, serial_call. rewrite Hr.
  simpl. unfold fake_in_waiting, fake_call. rewrite Ho, Hf. simpl.
  unfold upd. rewrite Nat.eqb_refl. simpl. rewrite Ho, Hrx, Hi, Hf.
  now repeat split.
Qed.

Lemma silent_quiet r k : forall d w, silent r w -> quiet k d w = true.
Proof.
  induction k as [|k IH]; intros d w Hs; [reflexivity|].
  cbn [quiet]. rewrite (silent_poll r w Hs). simpl.
  apply IH. now apply silent_idle.
Qed.

Lemma silent_world_silent : silent 0%nat silent_world.
Proof. now repeat split. Qed.

Lemma read_until_falsy_timeout_polls_forever_witness :
  truthy_timeout (Some 0) = false
  /\ snd (read_until 7 LF None (Some 0) silent_world) = Pending
  /\ clock (fst (read_until 7 LF None (Some 0) silent_world)) = 700.
Proof.
  destruct (read_until_falsy_timeout_polls_forever silent_world LF None
              (Some 0) eq_refl
              (fun k => silent_quiet 0%nat k _ _ silent_world_silent) 7%nat)
    as [H _].
  rewrite H. repeat split.
Defined.


Lemma read_polls_without_timeout_witness :
  quiet 3 (sleep_tune (self silent_world) * 2) silent_world = true
  /\ snd (read 3 1 silent_world) = Pending
  /\ clock (fst (read 3 1 silent_world)) = 600.
Proof.
  assert (Hq : quiet 3 (sleep_tune (self silent_world) * 2) silent_world
               = true) by reflexivity.
  split; [exact Hq|].
  destruct (read_polls_without_timeout silent_world 1 3 Hq)
    as (Hr & Hc & _).
  rewrite Hr. split; [reflexivity|]. exact Hc.
Defined.

(** C7, as stated, fails: with the poll interval [sleep_tune] at 100, one
    iteration of [read] that finds nothing suspends for 200. *)
Lemma read_suspends_two_poll_intervals :
  sleep_tune (self silent_world) = 100
  /\ trace (fst (read 1 1 silent_world))
     = [EvInWaiting 0%nat (Ok 0%N); EvSleep 200]
  /\ clock (fst (read 1 1 silent_world)) - clock silent_world
     <> sleep_tune (self silent_world).
Proof. repeat split. discriminate. Qed.

Lemma read_until_no_result_iff_deadline_witness :
  250 <> 0
  /\ snd (read_until 4 LF None (Some 250) silent_world) = Ok VNone
  /\ exists k r,
       expired (Some 250) (now silent_world)
         (idles k (sleep_tune (self silent_world)) silent_world) = true
       /\ trace (fst (read_until 4 LF None (Some 250) silent_world))
          = trace silent_world
            ++ idle_events r (sleep_tune (self silent_world)) k
            ++ [EvInWaiting r (Ok 0%N)].
Proof.
  assert (Ht : 250 <> 0) by discriminate.
  assert (H : read_until 4 LF None (Some 250) silent_world
              = (fst (read_until 4 LF None (Some 250) silent_world), Ok VNone))
    by reflexivity.
  destruct (read_until_no_result_iff_deadline silent_world LF None 250 Ht)
    as (_ & Hb & _).
  destruct (Hb 4%nat _ H) as (k & r & _ & _ & _ & He & Htr & _).
  split; [exact Ht|]. split; [reflexivity|].
  exists k, r. split; [exact He|exact Htr].
Defined.

(** C4, as stated, fails twice.  At timeout 0 the port never reports data
    and the deadline, the time of entry, is behind after the first
    suspension, yet no number of iterations brings the no-result signal.  And
    on a host that takes 1000 microseconds over a suspension of 100, the
    signal for a timeout of 250 comes 1000 after entry, more than one poll
    interval past the deadline. *)
Lemma read_until_signal_not_as_stated :
  ((forall k, quiet k (sleep_tune (self silent_world)) silent_world = true)
   /\ 0 < now (fst (read_until 1 LF None (Some 0) silent_world))
          - now silent_world
   /\ forall fuel,
        snd (read_until fuel LF None (Some 0) silent_world) <> Ok VNone)
  /\ (snd (read_until 2 LF None (Some 250) sluggish_world) = Ok VNone
      /\ sleep_tune (self sluggish_world) = 100
      /\ now (fst (read_until 2 LF None (Some 250) sluggish_world))
         - now sluggish_world = 1000
      /\ 250 + sleep_tune (self sluggish_world) < 1000).
Proof.
  assert (Hq : forall k,
             quiet k (sleep_tune (self silent_world)) silent_world = true)
    by (intros k; apply (silent_quiet 0%nat), silent_world_silent).
  split.
  - split; [exact Hq|]. split; [reflexivity|].
    intros fuel.
    rewrite (read_until_falsy_pending silent_world LF None (Some 0) fuel
               eq_refl Hq).
    discriminate.
  - repeat split.
Qed.

Lemma read_until_returns_what_one_device_call_yields_witness :
  read_until_default 1 hi_world
  = (fst (read_until_default 1 hi_world), Ok (VList [x48; x49]))
  /\ exists k r evs,
       trace (fst (read_until_default 1 hi_world))
       = trace hi_world ++ idle_events r 100 k ++ evs
       /\ (k < 1)%nat.
Proof.
  assert (H : read_until_default 1 hi_world
              = (fst (read_until_default 1 hi_world), Ok (VList [x48; x49])))
    by reflexivity.
  split; [exact H|].
  destruct (read_until_returns_what_one_device_call_yields 1 LF None
              (Some (1 * second)) hi_world _ _ H)
    as (k & r & evs & Hk & _ & _ & Ht & _).
  exists k, r, evs. split; [exact Ht|exact Hk].
Defined.

(** C8, as stated, fails: with "HI" buffered, no delimiter in it and no size
    bound, [read_until] hands back the partial sequence the driver call
    produced and not the no-result signal. *)
Lemma read_until_returns_partial_sequence :
  snd (read_until_default 1 hi_world) = Ok (VList [x48; x49])
  /\ ~ In x0a [x48; x49]
  /\ snd (read_until_default 1 hi_world) <> Ok VNone.
Proof.
  repeat split.
  - intros [H|[H|[]]]; discriminate.
  - discriminate.
Qed.



(** C1 at the failing input: a session with a live task is attached and
    [close_loop_on_error] is set, the driver's write raises; the port is
    closed and the fault raised, and neither the task is cancelled nor the
    loop stopped. *)
Theorem write_fault_skips_cancel_and_loop_stop :
  close_loop_on_error (self faulty_world) = true
  /\ telemetrix_aio_instance (self faulty_world) = Some 0%nat
  /\ the_task (sessions faulty_world 0%nat)
     = Some {| cancel_requested := false |}
  /\ snd (write 1 [x01] faulty_world) = Raise (SerialException EIO)
  /\ trace (fst (write 1 [x01] faulty_world))
     = [EvWrite 0%nat [x01] (Raise (SerialException EIO)); EvClose 0%nat]
  /\ is_open (ports (fst (write 1 [x01] faulty_world)) 0%nat) = false
  /\ the_task (sessions (fst (write 1 [x01] faulty_world)) 0%nat)
     = Some {| cancel_requested := false |}
  /\ loop_stopped (loop (fst (write 1 [x01] faulty_world))) = false.
Proof. repeat split. Qed.

(** C2 at the failing input: with "HI\nOK" buffered, [read_until()] hands
    the driver the two bytes "10", the decimal digits of [LF], as delimiter;
    the call finds no such pair, returns all five bytes, and the [read(2)]
    that follows finds the buffer empty and polls without end. *)
Theorem read_until_default_passes_decimal_digits :
  encode (str LF) = [x31; x30]
  /\ snd (read_until_default 1 hiok_world)
     = Ok (VList [x48; x49; x0a; x4f; x4b])
  /\ trace (fst (read_until_default 1 hiok_world))
     = [EvInWaiting 0%nat (Ok 5%N);
        EvReadUntil 0%nat [x31; x30] None (Ok [x48; x49; x0a; x4f; x4b])]
  /\ forall fuel,
       snd (read fuel 2 (fst (read_until_default 1 hiok_world))) = Pending.
Proof.
  repeat split. intros fuel.
  assert (Hs : silent 0%nat (fst (read_until_default 1 hiok_world)))
    by now repeat split.
  now rewrite (read_quiet 2 fuel _ (silent_quiet 0%nat fuel _ _ Hs)).
Qed.

(** C3 at the failing input: when the driver accepts no byte, of an empty
    write or of a write it cannot take, [write] hands back None and not 0;
    a count other than 0 comes back as it is. *)
Theorem write_returns_None_when_no_byte_accepted :
  trace (fst (write 1 [] ab_world)) = [EvWrite 0%nat [] (Ok 0%N)]
  /\ snd (write 1 [] ab_world) = Ok VNone
  /\ trace (fst (write 1 [x01; x02] (narrow_world 0)))
     = [EvWrite 0%nat [x01; x02] (Ok 0%N)]
  /\ snd (write 1 [x01; x02] (narrow_world 0)) = Ok VNone
  /\ snd (write 1 [x01; x02] (narrow_world 1)) = Ok (VInt 1)
  /\ snd (write 1 [x01; x02] ab_world) = Ok (VInt 2).
Proof. repeat split. Qed.

(** ** The scenarios of the spec on the scripted port *)

(** Bytes that arrive while [read] is suspended are found by a later poll. *)
Example read_finds_late_bytes :
  snd (read 5 1 late_world) = Ok (VInt 0x41)
  /\ clock (fst (read 5 1 late_world)) = 400.
Proof. split; reflexivity. Qed.

(** A fault on the third driver call: the first read is served, the poll of
    the second raises, the port ends closed and the adapter keeps its
    handle. *)
Example read_fault_on_third_call :
  snd (read 1 1 fused_world) = Ok (VInt 0x41)
  /\ snd (read 1 1 (fst (read 1 1 fused_world)))
     = Raise (SerialException EIO)
  /\ is_open (ports (fst (read 1 1 (fst (read 1 1 fused_world)))) 0%nat)
     = false
  /\ snd (get_serial (fst (read 1 1 (fst (read 1 1 fused_world)))))
     = Ok (Some 0%nat).
Proof. repeat split. Qed.

(** [reset_input_buffer()] discards what was buffered: the read after it
    finds nothing. *)
Example read_after_reset_finds_nothing :
  snd (read 3 2 (fst (reset_input_buffer ab_world))) = Pending
  /\ snd (read 3 2 ab_world) = Ok (VList [x41; x42]).
Proof. split; reflexivity. Qed.

(** On the scripted host, whose wall clock advances by exactly the
    suspensions asked for, [read_until] with a timeout of 50 ms on a silent
    port hands back None after 501 suspensions of 100 microseconds. *)
Example read_until_times_out_after_50ms :
  snd (read_until 600 LF None (Some 50000) silent_world) = Ok VNone
  /\ clock (fst (read_until 600 LF None (Some 50000) silent_world)) = 50100.
Proof. split; vm_compute; reflexivity. Qed.

Lemma operations_hand_back_well_shaped_values_witness :
  run_op (OpRead 1) 1 ab_world
  = (fst (run_op (OpRead 1) 1 ab_world), Ok (AValue (VInt 0x41)))
  /\ exists c, 0 <= c <= 255 /\ AValue (VInt 0x41) = AValue (VInt c).
Proof.
  assert (H : run_op (OpRead 1) 1 ab_world
              = (fst (run_op (OpRead 1) 1 ab_world), Ok (AValue (VInt 0x41))))
    by reflexivity.
  split; [exact H|].
  exact (operations_hand_back_well_shaped_values (OpRead 1) 1 ab_world _ _ H).
Defined.

Lemma fake_call_responsive {A : Type} (f : FakeSerial -> FakeSerial * A) p :
  snd (fake_call f p) <> Pending.
Proof.
  unfold fake_call. destruct (is_open p); simpl; [|discriminate].
  destruct (fuse p) as [[|k]|]; simpl; try discriminate;
    match goal with |- context [f ?x] => destruct (f x) end; discriminate.
Qed.

Lemma fake_responsive : responsive FakeSerial.
Proof. split; intros; apply fake_call_responsive. Qed.

Lemma read_until_comes_back_within_bound_witness :
  punctual hi_world
  /\ 250 <> 0
  /\ 0 < sleep_tune (self hi_world)
  /\ (polls_in_time 250 (sleep_tune (self hi_world)) < 4)%nat
  /\ snd (read_until 4 LF None (Some 250) hi_world) <> Pending.
Proof.
  assert (H0 : punctual hi_world)
    by (apply slept_wall_punctual; reflexivity).
  assert (H1 : 250 <> 0) by discriminate.
  assert (H2 : 0 < sleep_tune (self hi_world)) by reflexivity.
  assert (H3 : (polls_in_time 250 (sleep_tune (self hi_world)) < 4)%nat)
    by (vm_compute; lia).
  repeat split; try assumption.
  exact (read_until_comes_back_within_bound hi_world LF None 250 4
           fake_responsive H0 H1 H2 H3).
Defined.

Lemma read_until_delimiter_is_decimal_text_witness :
  read_until_default 1 hiok_world
  = (fst (read_until_default 1 hiok_world),
     Ok (VList [x48; x49; x0a; x4f; x4b]))
  /\ 0 <= LF <= 255
  /\ forallb is_digit (encode (str LF)) = true
  /\ encode (str LF) <> [x0a].
Proof.
  assert (H : read_until_default 1 hiok_world
              = (fst (read_until_default 1 hiok_world),
                 Ok (VList [x48; x49; x0a; x4f; x4b]))) by reflexivity.
  assert (Hr : 0 <= LF <= 255) by (unfold LF; lia).
  destruct (read_until_delimiter_is_decimal_text 1 LF None
              (Some (1 * second)) hiok_world _ _ H Hr)
    as (_ & Hd & _ & Hne).
  split; [exact H|]. split; [exact Hr|]. split; [exact Hd|].
  apply Hne. reflexivity.
Defined.

Lemma read_one_raises_on_short_read_witness :
  my_serial (self starved_world) = Some 0%nat
  /\ snd (read 1 1 starved_world) = Raise TypeError
  /\ trace (fst (read 1 1 starved_world))
     = [EvInWaiting 0%nat (Ok 1%N); EvRead 0%nat 1 (Ok [])].
Proof.
  assert (Hr : my_serial (self starved_world) = Some 0%nat) by reflexivity.
  assert (Hw : drv_in_waiting (ports starved_world 0%nat)
               = (starved_port, Ok 1%N)) by reflexivity.
  assert (Hd : drv_read 1 starved_port = (starved_port, Ok []))
    by reflexivity.
  assert (Hn : 1%N <> 0%N) by discriminate.
  assert (Hl : List.length (@nil byte) <> 1%nat) by discriminate.
  destruct (read_one_raises_on_short_read 0 starved_world 0%nat
              starved_port 1%N starved_port [] Hr Hw Hn Hd Hl)
    as (H1 & H2 & _).
  split; [exact Hr|]. split; [exact H1|exact H2].
Defined.
